(** * gemini-cli: the interactive chat client, embedded and verified

    A shallow embedding of [gemini_cli.py]: the model catalog filter
    ([get_available_models]), the session factory ([create_chat]), the
    line wrapper ([wrap_text]) and the read loop ([chat_loop]).

    Python [str] values are lists of characters.  A character is an
    8-bit [ascii], read as the code point of the same number, so the
    texts covered are those over U+0000..U+00FF; the character classes
    below ([isspace], [\w], [\d], [lower]) are CPython's tables for
    that range.  Lengths are counted in characters, as [len] does.

    [wrap_text] delegates to the standard library's [textwrap.wrap];
    module [TextWrap] transcribes [TextWrapper] (CPython 3.11) with the
    default options that [wrap_text] leaves untouched. *)

From Stdlib Require Import String List Ascii Bool Arith Lia.
Import ListNotations.

Local Open Scope list_scope.
Local Open Scope bool_scope.

Set Implicit Arguments.

(** ** Python strings *)

Definition str := list ascii.

(** A literal, written as a Rocq string. *)
Definition py (s : string) : str := list_ascii_of_string s.
Arguments py s%_string.

Definition code (c : ascii) : nat := nat_of_ascii c.

Definition in_range (lo hi : nat) (c : ascii) : bool :=
  (lo <=? code c) && (code c <=? hi).

Definition TAB : ascii := "009"%char.
Definition LF : ascii := "010"%char.
Definition CR : ascii := "013"%char.
Definition ESC : ascii := "027"%char.
Definition US : ascii := "031"%char.
Definition SP : ascii := " "%char.
Definition HYPHEN : ascii := "-"%char.

Module PyStr.

(** [str.isspace] on one character: U+0009..U+000D, U+001C..U+0020,
    U+0085 and U+00A0. *)
Definition isspace (c : ascii) : bool :=
  in_range 9 13 c || in_range 28 32 c || (code c =? 133) || (code c =? 160).

Fixpoint lstrip (s : str) : str :=
  match s with
  | [] => []
  | c :: s' => if isspace c then lstrip s' else s
  end.

Definition rstrip (s : str) : str := rev (lstrip (rev s)).

(** [s.strip()] *)
Definition strip (s : str) : str := rstrip (lstrip s).

(** [s.strip() == ''] *)
Definition blank (s : str) : bool :=
  match strip s with [] => true | _ :: _ => false end.

(** [str.lower] on one character: A-Z and the upper-case letters of
    U+00C0..U+00DE (all but the multiplication sign) move up by 32. *)
Definition lower_char (c : ascii) : ascii :=
  if in_range 65 90 c || in_range 192 214 c || in_range 216 222 c
  then ascii_of_nat (code c + 32)
  else c.

Definition lower (s : str) : str := map lower_char s.

Fixpoint startswith (p s : str) : bool :=
  match p, s with
  | [], _ => true
  | _ :: _, [] => false
  | a :: p', b :: s' => Ascii.eqb a b && startswith p' s'
  end.

(** [sub in s] *)
Fixpoint contains (sub s : str) : bool :=
  startswith sub s ||
  match s with
  | [] => false
  | _ :: s' => contains sub s'
  end.

(** [s == t] *)
Fixpoint eqb (s t : str) : bool :=
  match s, t with
  | [], [] => true
  | a :: s', b :: t' => Ascii.eqb a b && eqb s' t'
  | _, _ => false
  end.

(** [s in l] for a list of strings *)
Definition mem (s : str) (l : list str) : bool := existsb (eqb s) l.

(** [s.split('\n')]: never the empty list. *)
Fixpoint split_nl (s : str) : list str :=
  match s with
  | [] => [[]]
  | c :: s' =>
      if Ascii.eqb c LF then [] :: split_nl s'
      else match split_nl s' with
           | l :: ls => (c :: l) :: ls
           | [] => [[c]]
           end
  end.

(** ['\n'.join(lines)] *)
Fixpoint join_nl (lines : list str) : str :=
  match lines with
  | [] => []
  | [l] => l
  | l :: ls => l ++ LF :: join_nl ls
  end.

(** [s.expandtabs(tabsize)], from column [col]. *)
Fixpoint expandtabs_from (tabsize col : nat) (s : str) : str :=
  match s with
  | [] => []
  | c :: s' =>
      if Ascii.eqb c TAB then
        if 0 <? tabsize then
          let incr := tabsize - col mod tabsize in
          repeat SP incr ++ expandtabs_from tabsize (col + incr) s'
        else expandtabs_from tabsize col s'
      else
        c :: expandtabs_from tabsize
               (if Ascii.eqb c LF || Ascii.eqb c CR then 0 else col + 1) s'
  end.

Definition expandtabs (tabsize : nat) (s : str) : str :=
  expandtabs_from tabsize 0 s.

(** [s.rfind(c, 0, stop)]: the last index below [stop] holding [c]. *)
Fixpoint find_last (c : ascii) (s : str) : option nat :=
  match s with
  | [] => None
  | x :: s' =>
      match find_last c s' with
      | Some i => Some (S i)
      | None => if Ascii.eqb x c then Some 0 else None
      end
  end.

Definition rfind (c : ascii) (s : str) (stop : nat) : option nat :=
  find_last c (firstn stop s).

End PyStr.

(** ** [textwrap.TextWrapper] with its default options

    [expand_tabs], [replace_whitespace], [drop_whitespace],
    [break_long_words] and [break_on_hyphens] are true, [tabsize] is 8,
    both indents are empty, [fix_sentence_endings] is false and
    [max_lines] is [None]. *)

Module TextWrap.

(** [_whitespace = '\t\n\x0b\x0c\r '] *)
Definition is_ws (c : ascii) : bool :=
  in_range 9 13 c || (code c =? 32).

(** [\d] and [\w] of [re] on [str] patterns. *)
Definition is_digit (c : ascii) : bool := in_range 48 57 c.

Definition is_word (c : ascii) : bool :=
  in_range 48 57 c || in_range 65 90 c || (code c =? 95) ||
  in_range 97 122 c || (code c =? 170) || in_range 178 179 c ||
  (code c =? 181) || in_range 185 186 c || in_range 188 190 c ||
  in_range 192 214 c || in_range 216 246 c || in_range 248 255 c.

(** [letter = [^\d\W]] *)
Definition is_letter (c : ascii) : bool := is_word c && negb (is_digit c).

(** [word_punct]: [\w] and the seven characters exclamation mark,
    double quote, apostrophe, ampersand, full stop, comma and
    question mark. *)
Definition is_word_punct (c : ascii) : bool :=
  is_word c || (code c =? 33) || (code c =? 34) || (code c =? 39) ||
  (code c =? 38) || (code c =? 46) || (code c =? 44) || (code c =? 63).

Definition is_hyphen (c : ascii) : bool := Ascii.eqb c HYPHEN.

Definition tabsize : nat := 8.

(** [_munge_whitespace]: expand the tabs, then turn every whitespace
    character into a space. *)
Definition translate_ws (s : str) : str :=
  map (fun c => if is_ws c then SP else c) s.

Definition munge_whitespace (text : str) : str :=
  translate_ws (PyStr.expandtabs tabsize text).

(** *** [wordsep_re]

    The pattern is one capturing group of three alternatives and has
    a match starting at every position of a text, so [split] returns
    the successive matches from position 0 separated by empty
    strings, which [_split] filters out.  A position is given by
    [rest], the text from it on, and [before], the text up to it
    reversed (the look-behinds read its head). *)

Fixpoint count_while (p : ascii -> bool) (s : str) : nat :=
  match s with
  | c :: s' => if p c then S (count_while p s') else 0
  | [] => 0
  end.

(** [(?<=wp)] *)
Definition wp_behind (before : str) : bool :=
  match before with
  | c :: _ => is_word_punct c
  | [] => false
  end.

(** [-{2,}(?=\w)] at [rest]: the length of the run of hyphens.  The
    run is taken whole: a shorter one is followed by a hyphen, which
    is not [\w]. *)
Definition em_dash (rest : str) : option nat :=
  let k := count_while is_hyphen rest in
  if (2 <=? k) &&
     match skipn k rest with c :: _ => is_word c | [] => false end
  then Some k else None.

(** [-(?:(?<=lt{2}-)|(?<=lt-lt-))(?=lt-?lt)] at [rest] *)
Definition hyphen_break (before rest : str) : bool :=
  match rest with
  | h :: after =>
      is_hyphen h &&
      match before with
      | b1 :: b2 :: more =>
          is_letter b1 &&
          (is_letter b2 ||
           (is_hyphen b2 &&
            match more with b3 :: _ => is_letter b3 | [] => false end))
      | _ => false
      end &&
      match after with
      | a1 :: a2 :: more =>
          is_letter a1 &&
          ((is_hyphen a2 &&
            match more with a3 :: _ => is_letter a3 | [] => false end)
           || is_letter a2)
      | _ => false
      end
  | [] => false
  end.

(** The third alternative after its first character: [nws+?] has
    taken the characters up to [rest]; the result counts the
    characters the match still takes.  At each position the three
    endings are tried in the pattern's order, then the lazy [+?]
    takes one more non-whitespace character. *)
Fixpoint word_tail (before rest : str) : nat :=
  if hyphen_break before rest then 1
  else match rest with
       | [] => 0
       | c :: rest' =>
           if is_ws c then 0
           else if wp_behind before &&
                   match em_dash rest with Some _ => true | None => false end
           then 0
           else S (word_tail (c :: before) rest')
       end.

(** Length of the match of [wordsep_re] that starts at [c :: rest']. *)
Definition match_len (before : str) (c : ascii) (rest' : str) : nat :=
  if is_ws c then S (count_while is_ws rest')
  else
    match (if wp_behind before then em_dash (c :: rest') else None) with
    | Some k => k
    | None => S (word_tail (c :: before) rest')
    end.

Fixpoint split_from (fuel : nat) (before rest : str) : list str :=
  match fuel, rest with
  | _, [] => []
  | 0, _ => []
  | S fuel', c :: rest' =>
      let n := match_len before c rest' in
      let chunk := firstn n rest in
      chunk :: split_from fuel' (rev chunk ++ before) (skipn n rest)
  end.

(** [_split]: every match takes a character, so the length of the
    text is fuel enough (see [split_concat]). *)
Definition split (text : str) : list str :=
  split_from (length text) [] text.

Definition split_chunks (text : str) : list str :=
  split (munge_whitespace text).

(** *** [_wrap_chunks]

    The stack [chunks] is kept with its top, Python's [chunks[-1]],
    at the head of the list. *)

(** [_handle_long_word] with [break_long_words] and
    [break_on_hyphens]; [top] is [reversed_chunks[-1]].  Returns the
    new [cur_line] and the new top. *)
Definition handle_long_word (top : str) (cur_line : list str)
    (cur_len width : nat) : list str * str :=
  let space_left := if width <? 1 then 1 else width - cur_len in
  let end_ :=
    if space_left <? length top then
      match PyStr.rfind HYPHEN top space_left with
      | Some hyphen =>
          if (0 <? hyphen) &&
             existsb (fun c => negb (is_hyphen c)) (firstn hyphen top)
          then hyphen + 1 else space_left
      | None => space_left
      end
    else space_left in
  (cur_line ++ [firstn end_ top], skipn end_ top).

(** The inner [while chunks:] loop: take chunks while they fit. *)
Fixpoint fill_line (width : nat) (cur_line : list str) (cur_len : nat)
    (chunks : list str) : list str * nat * list str :=
  match chunks with
  | [] => (cur_line, cur_len, [])
  | top :: below =>
      if cur_len + length top <=? width
      then fill_line width (cur_line ++ [top]) (cur_len + length top) below
      else (cur_line, cur_len, chunks)
  end.

(** [if self.drop_whitespace and cur_line and cur_line[-1].strip() == '':
       del cur_line[-1]] *)
Definition drop_trailing (cur_line : list str) : list str :=
  match rev cur_line with
  | last :: _ => if PyStr.blank last then removelast cur_line else cur_line
  | [] => cur_line
  end.

(** One pass of the outer [while chunks:] loop, [chunks] not empty. *)
Definition wrap_line (width : nat) (top : str) (below : list str)
    (lines : list str) : list str * list str :=
  let chunks1 :=
    if PyStr.blank top && negb (Nat.eqb (length lines) 0)
    then below else top :: below in
  let '(cur_line, cur_len, chunks2) := fill_line width [] 0 chunks1 in
  let '(cur_line', chunks3) :=
    match chunks2 with
    | top2 :: below2 =>
        if width <? length top2 then
          let '(cl, top2') := handle_long_word top2 cur_line cur_len width in
          (cl, top2' :: below2)
        else (cur_line, chunks2)
    | [] => (cur_line, chunks2)
    end in
  let cur_line'' := drop_trailing cur_line' in
  let lines' :=
    match cur_line'' with
    | [] => lines
    | _ :: _ => lines ++ [concat cur_line'']
    end in
  (chunks3, lines').

(** The outer loop.  [None] only when [fuel] runs out. *)
Fixpoint wrap_loop (fuel width : nat) (chunks lines : list str)
    : option (list str) :=
  match chunks with
  | [] => Some lines
  | top :: below =>
      match fuel with
      | 0 => None
      | S fuel' =>
          let '(chunks', lines') := wrap_line width top below lines in
          wrap_loop fuel' width chunks' lines'
      end
  end.

(** What a pass of the loop makes smaller. *)
Definition weight (chunks : list str) : nat :=
  length (concat chunks) + length chunks.

(** [_wrap_chunks]; [None] stands for the [ValueError] that a width
    of 0 raises (with a positive width a list is returned, see
    [wrap_chunks_returns]). *)
Definition wrap_chunks (width : nat) (chunks : list str)
    : option (list str) :=
  if width <=? 0 then None
  else wrap_loop (S (weight chunks)) width chunks [].

(** [textwrap.wrap(text, width=width)] *)
Definition wrap (text : str) (width : nat) : option (list str) :=
  wrap_chunks width (split_chunks text).

End TextWrap.

(** ** [wrap_text] *)

(** The body of the [for] loop: the lines one input line contributes. *)
Definition wrap_segment (width : nat) (line : str) : option (list str) :=
  if PyStr.blank line then Some [[]]
  else TextWrap.wrap line width.

Fixpoint wrap_lines (width : nat) (lines : list str) : option (list str) :=
  match lines with
  | [] => Some []
  | line :: rest =>
      match wrap_segment width line with
      | None => None
      | Some seg =>
          match wrap_lines width rest with
          | None => None
          | Some segs => Some (seg ++ segs)
          end
      end
  end.

(** [wrap_text(text, width)]; [None] when [textwrap.wrap] raises. *)
Definition wrap_text (text : str) (width : nat) : option str :=
  match wrap_lines width (PyStr.split_nl text) with
  | Some wrapped_lines => Some (PyStr.join_nl wrapped_lines)
  | None => None
  end.

(** ** [get_available_models] *)

(** What iterating [genai.list_models()] gives: the model names it
    yields and, when the call or the iteration raises, the text of the
    exception. *)
Record listing := {
  yielded : list str;
  raised : option str
}.

Definition fallback_models : list str :=
  [py "models/gemini-1.5-flash"; py "models/gemini-1.5-pro";
   py "models/gemini-1.0-pro"].

Definition excluded_markers : list str :=
  [py "embedding"; py "vision"; py "tts"; py "native-audio"; py "thinking"].

Definition core_models : list str :=
  [py "gemini-1.5-pro"; py "gemini-1.5-flash"; py "gemini-1.0-pro"].

(** The two nested [if]s of the loop body. *)
Definition is_compatible (model_name : str) : bool :=
  if PyStr.contains (py "gemini") model_name &&
     negb (existsb (fun excluded => PyStr.contains excluded model_name)
             excluded_markers)
  then
    if existsb (fun core_model => PyStr.contains core_model model_name)
         core_models
    then true else false
  else false.

(** The [for] loop: [compatible_models] after the names in [models]. *)
Fixpoint collect_compatible (compatible_models models : list str) : list str :=
  match models with
  | [] => compatible_models
  | model_name :: models' =>
      collect_compatible
        (if is_compatible model_name
         then compatible_models ++ [model_name] else compatible_models)
        models'
  end.

(** Returns what is printed and the list returned. *)
Definition get_available_models (remote : listing) : list str * list str :=
  match raised remote with
  | Some e => ([py "Error listing models: " ++ e], fallback_models)
  | None =>
      match collect_compatible [] (yielded remote) with
      | [] => ([], fallback_models)
      | compatible_models => ([], compatible_models)
      end
  end.

(** ** The session factory and the read loop *)

Section Client.

(** The remote service: an opaque session handle, the state of the
    world the calls act on, and the two calls the client makes.  A
    call that raises an [Exception] returns [inl] of its text
    ([str(e)]).  [start_chat name] stands for
    [genai.GenerativeModel(model_name=name, ...).start_chat(history=[])]
    with the fixed generation configuration and safety settings;
    [send_message chat text] for [chat.send_message(text).text]. *)
Variable Session : Type.
Variable World : Type.
Variable start_chat : str -> World -> (str + Session) * World.
Variable send_message : Session -> str -> World -> (str + str) * World.

Inductive event :=
| Print (line : str)
| Prompt (prompt : str)
| StartChat (model_name : str)
| SendMessage (chat : Session) (text : str).

Definition not_found_advice (model_name : str) : list event :=
  [Print (py "Error: Model '" ++ model_name ++
          py "' is not supported for chat/content generation.");
   Print (py "Try using one of these reliable models instead:");
   Print (py "  - models/gemini-1.5-flash (recommended)");
   Print (py "  - models/gemini-1.5-pro");
   Print (py "  - models/gemini-1.0-pro")].

(** [create_chat(model_name)]: the session or [None], what happened
    on the way, and the world after. *)
Definition create_chat (model_name : str) (w : World)
    : option Session * list event * World :=
  match start_chat model_name w with
  | (inr chat, w') => (Some chat, [StartChat model_name], w')
  | (inl error_str, w') =>
      (None,
       StartChat model_name ::
       (if PyStr.contains (py "404") error_str &&
           PyStr.contains (py "not found") error_str
        then not_found_advice model_name
        else [Print (py "Error creating chat session: " ++ error_str)]),
       w')
  end.

Definition prompt : str := ESC :: py "[1;34m> " ++ ESC :: py "[0m".

Definition rate_limit_advice : list event :=
  [Print (LF :: ESC :: py "[1;31mRate Limit Error:" ++ ESC ::
          py "[0m You've reached the API rate limits for the free tier.");
   Print (py "Tips to resolve this issue:");
   Print (py "  1. Wait a minute before trying again");
   Print (py "  2. Try using a different model with '--model models/gemini-1.5-flash-8b'");
   Print (py "  3. Check your quota at https://ai.google.dev/gemini-api/docs/rate-limits" ++ [LF])].

Definition raw_error (error_str : str) : event :=
  Print (LF :: ESC :: py "[1;31mError: " ++ error_str ++ ESC :: py "[0m" ++ [LF]).

(** The [except Exception as e:] handler of a turn. *)
Definition turn_error (error_str : str) : list event :=
  if PyStr.contains (py "429") error_str &&
     PyStr.contains (py "quota") (PyStr.lower error_str)
  then rate_limit_advice
  else [raw_error error_str].

Definition reply (text : str) : event :=
  Print (LF :: ESC :: py "[1;32mGemini:" ++ ESC :: py "[0m" ++ LF :: text ++ [LF]).

(** The loop's variables: [chat] is [None] once [create_chat] has
    returned [None]. *)
Record loop_state := {
  chat : option Session;
  world : World
}.

(** The text of the [AttributeError] that calling [send_message] on
    [None] raises. *)
Definition none_has_no_send : str :=
  py "'NoneType' object has no attribute 'send_message'".

(** The [try:] block of a turn for a non-empty [user_input]. *)
Definition turn (st : loop_state) (user_input : str)
    : list event * loop_state :=
  match chat st with
  | None =>
      (turn_error none_has_no_send, st)
  | Some c =>
      match send_message c user_input (world st) with
      | (inr text, w') =>
          (SendMessage c user_input ::
           match wrap_text text 100 with
           | Some wrapped => [reply wrapped]
           | None => turn_error (py "invalid width 100 (must be > 0)")
           end,
           {| chat := chat st; world := w' |})
      | (inl error_str, w') =>
          (SendMessage c user_input :: turn_error error_str,
           {| chat := chat st; world := w' |})
      end
  end.

(** What the keyboard gives to one [input()] call. *)
Inductive keyboard :=
| Line (raw : str)
| CtrlC.

Inductive ending :=
| Exited
| Interrupted
| EOFError.

Inductive next :=
| Awaiting (st : loop_state)
| Terminated (e : ending).

(** One pass of [while True:]. *)
Definition step (model_name : str) (st : loop_state) (k : keyboard)
    : list event * next :=
  match k with
  | CtrlC =>
      ([Prompt prompt; Print (LF :: py "Exiting chat.")],
       Terminated Interrupted)
  | Line raw =>
      let user_input := PyStr.strip raw in
      if PyStr.mem (PyStr.lower user_input) [py "exit"; py "quit"] then
        ([Prompt prompt; Print (py "Exiting chat.")], Terminated Exited)
      else if PyStr.eqb (PyStr.lower user_input) (py "clear") then
        let '(c, events, w') := create_chat model_name (world st) in
        (Prompt prompt :: events ++ [Print (py "Chat history cleared.")],
         Awaiting {| chat := c; world := w' |})
      else
        match user_input with
        | [] => ([Prompt prompt], Awaiting st)
        | _ :: _ =>
            let '(events, st') := turn st user_input in
            (Prompt prompt :: events, Awaiting st')
        end
  end.

(** The loop over what the keyboard holds; [input()] raises
    [EOFError], which nothing catches, when it holds no more. *)
Fixpoint run (model_name : str) (st : loop_state) (keys : list keyboard)
    : list event * ending * loop_state :=
  match keys with
  | [] => ([Prompt prompt], EOFError, st)
  | k :: keys' =>
      match step model_name st k with
      | (events, Terminated e) => (events, e, st)
      | (events, Awaiting st') =>
          let '(events', e, st'') := run model_name st' keys' in
          (events ++ events', e, st'')
      end
  end.

Definition banner (model_name : str) : list event :=
  [Print (LF :: py "=== Chat with Gemini (" ++ model_name ++ py ") ===");
   Print (py "Type 'exit', 'quit', or press Ctrl+C to end the conversation.");
   Print (py "Type 'clear' to start a new conversation." ++ [LF])].

(** [chat_loop(chat, model_name)] *)
Definition chat_loop (c : Session) (model_name : str) (w : World)
    (keys : list keyboard) : list event * ending * loop_state :=
  let '(events, e, st) :=
    run model_name {| chat := Some c; world := w |} keys in
  (banner model_name ++ events, e, st).

(** An input that is neither a command nor empty. *)
Definition is_message (user_input : str) : Prop :=
  user_input <> [] /\
  PyStr.mem (PyStr.lower user_input) [py "exit"; py "quit"] = false /\
  PyStr.eqb (PyStr.lower user_input) (py "clear") = false.

(** The calls made on sessions or on the factory among [events]. *)
Definition is_call (e : event) : bool :=
  match e with
  | StartChat _ | SendMessage _ _ => true
  | Print _ | Prompt _ => false
  end.

End Client.

Arguments Print {Session} line.
Arguments Prompt {Session} prompt.
Arguments StartChat {Session} model_name.
Arguments Terminated {Session World} e.

Arguments not_found_advice {Session} model_name.
Arguments rate_limit_advice {Session}.
Arguments raw_error {Session} error_str.
Arguments turn_error {Session} error_str.
Arguments reply {Session} text.
Arguments banner {Session} model_name.

(** ** Vocabulary of the properties *)

(** [w] occurs in [s] as a stretch of consecutive characters. *)
Definition infix (w s : str) : Prop := exists a b, s = a ++ w ++ b.

Definition no_ws (s : str) : bool :=
  forallb (fun c => negb (TextWrap.is_ws c)) s.

Definition all_ws (s : str) : bool := forallb TextWrap.is_ws s.

Definition no_hyphen (s : str) : bool :=
  forallb (fun c => negb (TextWrap.is_hyphen c)) s.

Definition starts_ws (s : str) : Prop :=
  match s with
  | [] => True
  | c :: _ => TextWrap.is_ws c = true
  end.

Definition ends_ws (s : str) : Prop :=
  s = [] \/ exists q z, s = q ++ [z] /\ TextWrap.is_ws z = true.

(** [w] is a word of [text]: a maximal run of characters that are not
    whitespace, found between [pre] and [post]. *)
Definition word_at (text pre w post : str) : Prop :=
  text = pre ++ w ++ post /\ w <> [] /\ no_ws w = true /\
  ends_ws pre /\ starts_ws post.

(** No run of non-whitespace characters of [text] is longer than
    [width]. *)
Definition words_fit (width : nat) (text : str) : Prop :=
  forall a w b, text = a ++ w ++ b -> no_ws w = true -> length w <= width.

(** The whitespace of [text], as [str.isspace] sees it, is among the
    six characters the wrapper treats as whitespace. *)
Definition plain_space (text : str) : Prop :=
  forall c, In c text -> PyStr.isspace c = true -> TextWrap.is_ws c = true.

(** A character of a munged plain text: a space, or no whitespace. *)
Definition tidy (c : ascii) : Prop := c = SP \/ PyStr.isspace c = false.

(** No two neighbours in [chunks] are both whitespace. *)
Fixpoint separated (chunks : list str) : Prop :=
  match chunks with
  | [] => True
  | a :: tl =>
      match tl with
      | [] => True
      | b :: _ => all_ws a = true -> all_ws b = true -> False
      end /\ separated tl
  end.

(** A line that wrapping leaves alone: not empty, no longer than
    [width], made of spaces and characters that are not whitespace,
    the last of which is not whitespace. *)
Definition settled (width : nat) (l : str) : Prop :=
  l <> [] /\ length l <= width /\ Forall tidy l /\
  exists s x, l = s ++ [x] /\ PyStr.isspace x = false.

(** The chunks of a plain text whose words fit the width. *)
Definition word_chunk (width : nat) (c : str) : Prop :=
  c <> [] /\ Forall (fun x => PyStr.isspace x = false) c /\ length c <= width.

Definition chunk_ok (width : nat) (c : str) : Prop :=
  Forall tidy c /\ ((c <> [] /\ all_ws c = true) \/ word_chunk width c).

(** [l == ''] *)
Definition is_empty (l : str) : bool :=
  match l with [] => true | _ :: _ => false end.

(** How [wrap_text] treats one line: a blank line becomes one empty
    line, any other line one or more lines, none of them empty. *)
Definition segment_of (line : str) (seg : list str) : Prop :=
  if PyStr.blank line then seg = [[]]
  else seg <> [] /\ Forall (fun l => l <> []) seg.

(** The columns [expandtabs] moves to. *)
Definition tab_stop (col : nat) : nat :=
  TextWrap.tabsize - col mod TextWrap.tabsize.

Definition next_col (c : ascii) (col : nat) : nat :=
  if Ascii.eqb c LF || Ascii.eqb c CR then 0 else col + 1.

(** Checks, by running over the text, of [words_fit] and
    [plain_space]; [run] is the length of the run the scan is in. *)
Fixpoint runs_fit (width run : nat) (s : str) : bool :=
  match s with
  | [] => true
  | c :: s' =>
      if TextWrap.is_ws c then runs_fit width 0 s'
      else (S run <=? width) && runs_fit width (S run) s'
  end.

Definition plain_spaceb (s : str) : bool :=
  forallb (fun c => implb (PyStr.isspace c) (TextWrap.is_ws c)) s.

(** ** Services to run the client against

    Sessions are numbers and the world counts the calls made. *)

Module Demo.

(** The factory is out of reach. *)
Definition start_chat_down (model_name : str) (w : nat)
    : (str + nat) * nat :=
  (inl (py "503 service unavailable"), S w).

(** The factory does not know the model. *)
Definition start_chat_unknown (model_name : str) (w : nat)
    : (str + nat) * nat :=
  (inl (py "404 models/" ++ model_name ++ py " is not found"), S w).

(** A session that answers with what it was sent. *)
Definition send_echo (c : nat) (text : str) (w : nat) : (str + str) * nat :=
  (inr text, S w).

(** A session over its quota. *)
Definition send_over_quota (c : nat) (text : str) (w : nat)
    : (str + str) * nat :=
  (inl (py "429 Quota exceeded for requests per minute"), S w).

Definition flash : str := py "models/gemini-1.5-flash".

End Demo.

(** ** [setup_api], [list_models_command] and [main] *)

(** The characters of [s] that are not whitespace, in order. *)
Definition content (s : str) : str :=
  filter (fun c => negb (PyStr.isspace c)) s.

(** What the keyboard gives that ends the loop: Ctrl+C, or a line that
    is exit or quit once stripped and lower-cased. *)
Definition ends_loop (k : keyboard) : bool :=
  match k with
  | CtrlC => true
  | Line raw =>
      PyStr.mem (PyStr.lower (PyStr.strip raw)) [py "exit"; py "quit"]
  end.

Definition is_clear (k : keyboard) : bool :=
  match k with
  | CtrlC => false
  | Line raw => PyStr.eqb (PyStr.lower (PyStr.strip raw)) (py "clear")
  end.

Section Program.

(** The service of [Client], with the two calls made outside the
    loop: [configure key] stands for [genai.configure(api_key=key)] and
    gives the text of the exception when it raises one; [list_models]
    for the iteration of [genai.list_models()]. *)
Variable Session : Type.
Variable World : Type.
Variable start_chat : str -> World -> (str + Session) * World.
Variable send_message : Session -> str -> World -> (str + str) * World.
Variable configure : str -> World -> option str * World.
Variable list_models : World -> listing * World.

(** What the program does, in order: the calls on the library and
    what the client of [Client] does. *)
Inductive action :=
| Configure (api_key : str)
| ListModels
| Did (e : event Session).

(** A function returns, or [sys.exit(status)] ends the process. *)
Inductive returned (A : Type) :=
| Return (a : A)
| SysExit (status : nat).

Definition say (lines : list str) : list action :=
  map (fun line => Did (Print line)) lines.

Definition key_instructions : list str :=
  [py "Error: GEMINI_API_KEY environment variable not set.";
   LF :: py "To use this script, you need to set your Google API key:";
   py "  export GEMINI_API_KEY='your-api-key'";
   LF :: py "You can get an API key from https://makersuite.google.com/app/apikey"].

(** [setup_api()]; [api_key] is [os.environ.get('GEMINI_API_KEY')]:
    [not api_key] holds of [None] and of the empty string. *)
Definition setup_api (api_key : option str) (w : World)
    : list action * returned bool * World :=
  match api_key with
  | Some (c :: key) =>
      match configure (c :: key) w with
      | (None, w') => ([Configure (c :: key)], Return true, w')
      | (Some e, w') =>
          ([Configure (c :: key);
            Did (Print (py "Error configuring Gemini API: " ++ e))],
           Return false, w')
      end
  | _ => (say key_instructions, SysExit bool 1, w)
  end.

Definition model_line (model : str) : str := py "  - " ++ model.

(** [list_models_command()] *)
Definition list_models_command (api_key : option str) (w : World)
    : list action * returned unit * World :=
  match setup_api api_key w with
  | (acts, SysExit _ status, w') => (acts, SysExit unit status, w')
  | (acts, Return false, w') => (acts, Return tt, w')
  | (acts, Return true, w') =>
      let '(remote, w'') := list_models w' in
      let '(printed, models) := get_available_models remote in
      (acts ++ ListModels :: say printed ++
       match models with
       | [] => say [py "No Gemini models found or could not access the API."]
       | _ :: _ =>
           say ((LF :: py "Available Gemini models:") :: map model_line models)
       end,
       Return tt, w'')
  end.

(** The parsed command line: [args.model] and [args.list_models]. *)
Record arguments := {
  model : str;
  list_models_flag : bool
}.

Definition default_arguments : arguments :=
  {| model := py "models/gemini-1.5-flash"; list_models_flag := false |}.

(** How the process ends: [main] returns, [sys.exit] was called, or
    the [EOFError] of [input()] goes uncaught. *)
Inductive finish :=
| Finished
| SystemExit (status : nat)
| UncaughtEOFError.

(** [main()] after [parse_args]; a session object is true to
    [if chat:]. *)
Definition main (args : arguments) (api_key : option str)
    (keys : list keyboard) (w : World) : list action * finish * World :=
  if list_models_flag args then
    match list_models_command api_key w with
    | (acts, SysExit _ status, w') => (acts, SystemExit status, w')
    | (acts, Return _, w') => (acts, Finished, w')
    end
  else
    match setup_api api_key w with
    | (acts, SysExit _ status, w') => (acts, SystemExit status, w')
    | (acts, Return false, w') => (acts, Finished, w')
    | (acts, Return true, w') =>
        match create_chat start_chat (model args) w' with
        | (None, events, w'') => (acts ++ map Did events, Finished, w'')
        | (Some c, events, w'') =>
            let '(events', e, st) :=
              chat_loop start_chat send_message c (model args) w'' keys in
            (acts ++ map Did (events ++ events'),
             match e with
             | EOFError => UncaughtEOFError
             | Exited | Interrupted => Finished
             end,
             world st)
        end
    end.

(** The actions that reach the remote service or read the keyboard. *)
Definition is_remote (a : action) : bool :=
  match a with
  | Configure _ | ListModels => true
  | Did e => is_call e
  end.

Definition is_prompt (a : action) : bool :=
  match a with
  | Did (Prompt _) => true
  | _ => false
  end.

End Program.

Arguments Configure {Session} api_key.
Arguments ListModels {Session}.
Arguments SysExit {A} status.
Arguments Return {A} a.
Arguments say {Session} lines.
Arguments setup_api {Session World} configure api_key w.
Arguments list_models_command {Session World} configure list_models api_key w.

Module DemoProgram.

(** The library accepts the key. *)
Definition configure_ok (key : str) (w : nat) : option str * nat :=
  (None, S w).

(** The library refuses the key. *)
Definition configure_refused (key : str) (w : nat) : option str * nat :=
  (Some (py "invalid API key"), S w).

(** A catalog of three models, one of them usable. *)
Definition list_three (w : nat) : listing * nat :=
  ({| yielded := [py "models/gemini-1.5-flash"; py "models/embedding-001";
                  py "models/gemini-1.5-pro-vision"];
      raised := None |}, S w).

(** A factory that numbers its sessions by the calls made so far. *)
Definition start_chat_ok (model_name : str) (w : nat) : (str + nat) * nat :=
  (inr w, S w).

End DemoProgram.

(** * Properties *)

Unset Implicit Arguments.

(** ** Characters and strings *)

Ltac each_char c :=
  destruct c as [[] [] [] [] [] [] [] []].

Lemma isspace_lower_fixed (c : ascii) :
  PyStr.isspace c = true -> PyStr.lower_char c = c.
Proof. each_char c; intros H; try reflexivity; discriminate H. Qed.

Lemma is_ws_isspace (c : ascii) :
  TextWrap.is_ws c = true -> PyStr.isspace c = true.
Proof. each_char c; intros H; try reflexivity; discriminate H. Qed.

Lemma eqb_refl (s : str) : PyStr.eqb s s = true.
Proof.
  induction s as [|c s IH]; simpl; [reflexivity|].
  now rewrite Ascii.eqb_refl.
Qed.

Lemma eqb_eq (s t : str) : PyStr.eqb s t = true <-> s = t.
Proof.
  split; [|intros ->; apply eqb_refl].
  revert t; induction s as [|a s IH]; intros [|b t]; simpl; try easy.
  intros H; apply andb_true_iff in H as [Hc Hs].
  apply Ascii.eqb_eq in Hc; apply IH in Hs; congruence.
Qed.

(** [strip] leaves a string alone when neither end is whitespace. *)
Lemma lstrip_keeps (c : ascii) (s : str) :
  PyStr.isspace c = false -> PyStr.lstrip (c :: s) = c :: s.
Proof. intros H; simpl; now rewrite H. Qed.

Lemma strip_keeps (a b : ascii) (s : str) :
  PyStr.isspace a = false -> PyStr.isspace b = false ->
  PyStr.strip (a :: s ++ [b]) = a :: s ++ [b].
Proof.
  intros Ha Hb; unfold PyStr.strip, PyStr.rstrip.
  rewrite lstrip_keeps by assumption.
  replace (rev (a :: s ++ [b])) with (b :: rev s ++ [a])
    by (simpl; now rewrite rev_app_distr).
  rewrite lstrip_keeps by assumption.
  simpl; rewrite rev_app_distr, rev_involutive; reflexivity.
Qed.

Lemma lower_not_space (c x : ascii) :
  PyStr.lower_char c = x -> PyStr.isspace x = false -> PyStr.isspace c = false.
Proof.
  intros Hl Hx; destruct (PyStr.isspace c) eqn:Hc; [|reflexivity].
  pose proof (isspace_lower_fixed c Hc); congruence.
Qed.

(** A word of four letters, in any letter case, is its own [strip]. *)
Lemma strip_of_command (raw : str) (a b c d : ascii) :
  PyStr.lower raw = [a; b; c; d] ->
  PyStr.isspace a = false -> PyStr.isspace d = false ->
  PyStr.strip raw = raw.
Proof.
  intros H Ha Hd.
  destruct raw as [|r1 [|r2 [|r3 [|r4 [|r5 raw]]]]]; try discriminate H.
  injection H as H1 H2 H3 H4.
  apply (strip_keeps r1 r4 [r2; r3]); eapply lower_not_space; eassumption.
Qed.

(** ** The catalog *)

Lemma collect_compatible_filter (acc models : list str) :
  collect_compatible acc models = acc ++ filter is_compatible models.
Proof.
  revert acc; induction models as [|m models IH]; intros acc; simpl.
  - now rewrite app_nil_r.
  - rewrite IH; destruct (is_compatible m); [|reflexivity].
    now rewrite <- app_assoc.
Qed.

(** The nested tests of the loop body are the two stages of the
    filter. *)
Lemma is_compatible_stages (model_name : str) :
  is_compatible model_name =
  (PyStr.contains (py "gemini") model_name &&
   negb (existsb (fun excluded => PyStr.contains excluded model_name)
           excluded_markers)) &&
  existsb (fun core_model => PyStr.contains core_model model_name) core_models.
Proof.
  unfold is_compatible.
  destruct (PyStr.contains (py "gemini") model_name &&
            negb (existsb _ excluded_markers)); [|reflexivity].
  now destruct (existsb _ core_models).
Qed.

(** C3.  Whenever the remote listing raises, or no listed model passes
    the two-stage filter, the catalog fetch returns exactly the three
    fallback names. *)
Theorem get_available_models_fallback (remote : listing) :
  raised remote <> None \/ filter is_compatible (yielded remote) = [] ->
  snd (get_available_models remote) =
  [py "models/gemini-1.5-flash"; py "models/gemini-1.5-pro";
   py "models/gemini-1.0-pro"].
Proof.
  unfold get_available_models; intros [Hraise | Hempty].
  - destruct (raised remote); [reflexivity | contradiction].
  - destruct (raised remote); [reflexivity|].
    rewrite collect_compatible_filter, Hempty; reflexivity.
Qed.

Lemma get_available_models_fallback_witness :
  snd (get_available_models
         {| yielded := [py "models/gemini-1.5-flash"];
            raised := Some (py "503 unavailable") |}) =
  [py "models/gemini-1.5-flash"; py "models/gemini-1.5-pro";
   py "models/gemini-1.0-pro"] /\
  snd (get_available_models
         {| yielded := [py "models/embedding-001"]; raised := None |}) =
  [py "models/gemini-1.5-flash"; py "models/gemini-1.5-pro";
   py "models/gemini-1.0-pro"].
Proof.
  split; apply get_available_models_fallback; simpl.
  - left; discriminate.
  - right; reflexivity.
Defined.

(** C4.  From the listing flash, embedding-001, pro-vision the fetch
    returns the flash model alone: the embedding model fails the
    family-marker stage and the vision model the exclusion stage. *)
Theorem get_available_models_example :
  get_available_models
    {| yielded := [py "models/gemini-1.5-flash"; py "models/embedding-001";
                   py "models/gemini-1.5-pro-vision"];
       raised := None |} = ([], [py "models/gemini-1.5-flash"]) /\
  PyStr.contains (py "gemini") (py "models/embedding-001") = false /\
  existsb (fun excluded =>
             PyStr.contains excluded (py "models/gemini-1.5-pro-vision"))
    excluded_markers = true.
Proof. repeat split; vm_compute; reflexivity. Qed.

(** ** The session factory and the read loop *)

Section ClientProperties.

Variable Session : Type.
Variable World : Type.
Variable start_chat : str -> World -> (str + Session) * World.
Variable send_message : Session -> str -> World -> (str + str) * World.

Lemma create_chat_raises (model_name error_str : str) (w w' : World) :
  start_chat model_name w = (inl error_str, w') ->
  create_chat start_chat model_name w =
  (None,
   StartChat model_name ::
   (if PyStr.contains (py "404") error_str &&
       PyStr.contains (py "not found") error_str
    then not_found_advice model_name
    else [Print (py "Error creating chat session: " ++ error_str)]),
   w').
Proof. intros H; unfold create_chat; now rewrite H. Qed.

(** C5.  When the creation call raises, [create_chat] returns the
    absent session; it has printed the remediation lines naming the
    three fallback models when the error text contains 404 and
    not found, and the generic line otherwise. *)
Theorem create_chat_failure (model_name error_str : str) (w w' : World) :
  start_chat model_name w = (inl error_str, w') ->
  exists printed : list (event Session),
    create_chat start_chat model_name w = (None, StartChat model_name :: printed, w') /\
    (PyStr.contains (py "404") error_str = true ->
     PyStr.contains (py "not found") error_str = true ->
     printed =
     [Print (py "Error: Model '" ++ model_name ++
             py "' is not supported for chat/content generation.");
      Print (py "Try using one of these reliable models instead:");
      Print (py "  - models/gemini-1.5-flash (recommended)");
      Print (py "  - models/gemini-1.5-pro");
      Print (py "  - models/gemini-1.0-pro")]) /\
    (PyStr.contains (py "404") error_str = false \/
     PyStr.contains (py "not found") error_str = false ->
     printed = [Print (py "Error creating chat session: " ++ error_str)]).
Proof.
  intros Hfail; rewrite (create_chat_raises _ _ _ _ Hfail).
  eexists; split; [reflexivity|]; split.
  - intros -> ->; reflexivity.
  - intros [-> | ->]; [reflexivity|].
    now rewrite andb_false_r.
Qed.

Lemma step_message (model_name : str) (st : loop_state Session World)
    (raw : str) :
  is_message (PyStr.strip raw) ->
  step start_chat send_message model_name st (Line raw) =
  (Prompt prompt :: fst (turn send_message st (PyStr.strip raw)),
   Awaiting (snd (turn send_message st (PyStr.strip raw)))).
Proof.
  intros (Hne & Hexit & Hclear); unfold step.
  rewrite Hexit, Hclear.
  destruct (PyStr.strip raw) as [|c s] eqn:E; [contradiction|].
  now destruct (turn send_message st (c :: s)).
Qed.

(** C6.  When the send of a turn raises, the loop prints the
    rate-limit advice if the error text contains 429 and, in any
    letter case, quota; it prints the raw text inside the error line
    if the text contains neither; either way it goes on awaiting
    input with the same session. *)
Theorem turn_failure_classified (model_name : str)
    (st : loop_state Session World) (c : Session)
    (raw error_str : str) (w' : World) :
  is_message (PyStr.strip raw) ->
  chat st = Some c ->
  send_message c (PyStr.strip raw) (world st) = (inl error_str, w') ->
  exists printed : list (event Session),
    step start_chat send_message model_name st (Line raw) =
    (Prompt prompt :: SendMessage c (PyStr.strip raw) :: printed,
     Awaiting {| chat := Some c; world := w' |}) /\
    (PyStr.contains (py "429") error_str = true ->
     PyStr.contains (py "quota") (PyStr.lower error_str) = true ->
     printed =
     [Print (LF :: ESC :: py "[1;31mRate Limit Error:" ++ ESC ::
             py "[0m You've reached the API rate limits for the free tier.");
      Print (py "Tips to resolve this issue:");
      Print (py "  1. Wait a minute before trying again");
      Print (py "  2. Try using a different model with '--model models/gemini-1.5-flash-8b'");
      Print (py "  3. Check your quota at https://ai.google.dev/gemini-api/docs/rate-limits" ++ [LF])]) /\
    (PyStr.contains (py "429") error_str = false ->
     PyStr.contains (py "quota") (PyStr.lower error_str) = false ->
     printed =
     [Print (LF :: ESC :: py "[1;31mError: " ++ error_str ++
             ESC :: py "[0m" ++ [LF])]).
Proof.
  intros Hmsg Hchat Hsend.
  rewrite (step_message model_name st raw Hmsg).
  unfold turn; rewrite Hchat, Hsend; simpl fst; simpl snd.
  eexists; split; [reflexivity|]; unfold turn_error; split.
  - intros -> ->; reflexivity.
  - intros -> _; reflexivity.
Qed.

(** C7.  A line that is exit or quit in any letter case ends the
    loop: the farewell is printed, the loop is terminated whatever
    the keyboard still holds, and no call is made on the session or
    the factory. *)
Theorem exit_terminates (model_name : str) (st : loop_state Session World)
    (raw : str) (keys : list keyboard) :
  PyStr.lower raw = py "exit" \/ PyStr.lower raw = py "quit" ->
  step start_chat send_message model_name st (Line raw) =
  ([Prompt prompt; Print (py "Exiting chat.")], Terminated Exited) /\
  run start_chat send_message model_name st (Line raw :: keys) =
  ([Prompt prompt; Print (py "Exiting chat.")], Exited, st) /\
  filter (@is_call Session)
    (fst (fst (run start_chat send_message model_name st (Line raw :: keys)))) = [].
Proof.
  intros Hcmd.
  assert (Hstep : step start_chat send_message model_name st (Line raw) =
                  ([Prompt prompt; Print (py "Exiting chat.")],
                   Terminated Exited)).
  { unfold step.
    assert (Hstrip : PyStr.strip raw = raw)
      by (destruct Hcmd as [H | H];
          apply (strip_of_command raw _ _ _ _ H); reflexivity).
    rewrite Hstrip; destruct Hcmd as [-> | ->]; reflexivity. }
  split; [exact Hstep|].
  assert (Hrun : run start_chat send_message model_name st (Line raw :: keys) =
                 ([Prompt prompt; Print (py "Exiting chat.")], Exited, st))
    by (cbn [run]; now rewrite Hstep).
  split; [exact Hrun|].
  rewrite Hrun; reflexivity.
Qed.

(** A message typed while the loop holds no session reaches no
    session: the error of the missing session is printed and the loop
    goes on as it is. *)
Lemma message_without_session (model_name : str) (w : World) (raw : str) :
  is_message (PyStr.strip raw) ->
  step start_chat send_message model_name {| chat := None; world := w |}
    (Line raw) =
  ([Prompt prompt;
    Print (LF :: ESC :: py "[1;31mError: " ++ none_has_no_send ++
           ESC :: py "[0m" ++ [LF])],
   Awaiting {| chat := None; world := w |}).
Proof.
  intros Hmsg; rewrite (step_message model_name _ raw Hmsg); reflexivity.
Qed.

(** C1, as the code has it.  On clear, in any letter case and with
    any surrounding whitespace, the loop's session becomes what the
    factory returns: when creation fails the loop holds the absent
    session, not the one it had; the confirmation is still printed
    and the loop goes on awaiting input. *)
Theorem clear_failure_leaves_no_session (model_name : str)
    (st : loop_state Session World) (raw error_str : str) (w' : World) :
  PyStr.lower (PyStr.strip raw) = py "clear" ->
  start_chat model_name (world st) = (inl error_str, w') ->
  exists printed : list (event Session),
    step start_chat send_message model_name st (Line raw) =
    (Prompt prompt :: StartChat model_name :: printed ++
     [Print (py "Chat history cleared.")],
     Awaiting {| chat := None; world := w' |}).
Proof.
  intros Hclear Hfail; eexists; unfold step.
  rewrite Hclear, (create_chat_raises _ _ _ _ Hfail); reflexivity.
Qed.

End ClientProperties.

(** ** Blank strings, lines *)

Lemma lstrip_nil (s : str) :
  PyStr.lstrip s = [] <-> forallb PyStr.isspace s = true.
Proof.
  induction s as [|c s IH]; simpl; [tauto|].
  destruct (PyStr.isspace c); simpl; [exact IH|].
  split; discriminate.
Qed.

Lemma lstrip_forallb (s : str) :
  forallb PyStr.isspace (PyStr.lstrip s) = forallb PyStr.isspace s.
Proof.
  induction s as [|c s IH]; simpl; [reflexivity|].
  destruct (PyStr.isspace c) eqn:E; simpl; [exact IH|].
  now rewrite E.
Qed.

Lemma forallb_rev (p : ascii -> bool) (s : str) :
  forallb p (rev s) = forallb p s.
Proof.
  induction s as [|c s IH]; simpl; [reflexivity|].
  rewrite forallb_app, IH; simpl.
  rewrite andb_true_r; apply andb_comm.
Qed.

Lemma blank_spec (s : str) : PyStr.blank s = forallb PyStr.isspace s.
Proof.
  apply eq_true_iff_eq; unfold PyStr.blank, PyStr.strip, PyStr.rstrip.
  rewrite <- (lstrip_forallb s), <- (forallb_rev _ (PyStr.lstrip s)).
  rewrite <- lstrip_nil.
  destruct (PyStr.lstrip (rev (PyStr.lstrip s))) as [|c t]; simpl.
  - tauto.
  - destruct (rev t ++ [c]) eqn:E.
    + now apply app_eq_nil in E as [_ E].
    + split; discriminate.
Qed.

Lemma blank_nil : PyStr.blank [] = true.
Proof. reflexivity. Qed.

(** A string holding a character that is not whitespace is not blank. *)
Lemma not_blank_in (s : str) (x : ascii) :
  In x s -> PyStr.isspace x = false -> PyStr.blank s = false.
Proof.
  intros Hin Hx; rewrite blank_spec.
  destruct (forallb PyStr.isspace s) eqn:E; [|reflexivity].
  rewrite forallb_forall in E; rewrite (E x Hin) in Hx; discriminate.
Qed.

Lemma not_blank_has (s : str) :
  PyStr.blank s = false -> exists x, In x s /\ PyStr.isspace x = false.
Proof.
  rewrite blank_spec; induction s as [|c s IH]; simpl; [discriminate|].
  destruct (PyStr.isspace c) eqn:E; simpl.
  - intros H; destruct (IH H) as (x & Hin & Hx); eauto.
  - intros _; exists c; auto.
Qed.

Lemma split_nl_not_nil (s : str) : PyStr.split_nl s <> [].
Proof.
  induction s as [|c s IH]; simpl; [discriminate|].
  destruct (Ascii.eqb c LF); [discriminate|].
  destruct (PyStr.split_nl s); discriminate.
Qed.

Lemma split_nl_one (l : str) : ~ In LF l -> PyStr.split_nl l = [l].
Proof.
  induction l as [|c l IH]; simpl; intros H; [reflexivity|].
  destruct (Ascii.eqb c LF) eqn:E.
  - apply Ascii.eqb_eq in E; subst; tauto.
  - rewrite IH by tauto; reflexivity.
Qed.

Lemma split_nl_app (l t : str) :
  ~ In LF l -> PyStr.split_nl (l ++ LF :: t) = l :: PyStr.split_nl t.
Proof.
  induction l as [|c l IH]; simpl; intros H; [reflexivity|].
  destruct (Ascii.eqb c LF) eqn:E.
  - apply Ascii.eqb_eq in E; subst; tauto.
  - rewrite IH by tauto; reflexivity.
Qed.

(** Splitting what [join_nl] has joined gives the lines back. *)
Lemma split_join (ls : list str) :
  ls <> [] -> Forall (fun l => ~ In LF l) ls ->
  PyStr.split_nl (PyStr.join_nl ls) = ls.
Proof.
  induction ls as [|l ls IH]; [congruence|]; intros _ Hno.
  inversion Hno as [|? ? Hl Hls]; subst.
  destruct ls as [|l2 ls]; [now apply split_nl_one|].
  change (PyStr.join_nl (l :: l2 :: ls))
    with (l ++ LF :: PyStr.join_nl (l2 :: ls)).
  rewrite split_nl_app by assumption.
  now rewrite IH.
Qed.

Lemma split_nl_no_lf (s : str) :
  Forall (fun l => ~ In LF l) (PyStr.split_nl s).
Proof.
  induction s as [|c s IH]; simpl; [repeat constructor; auto|].
  destruct (Ascii.eqb c LF) eqn:E; [constructor; auto|].
  destruct (PyStr.split_nl s) as [|l ls]; [repeat constructor|].
  - simpl; intros [H | []]; subst; now rewrite Ascii.eqb_refl in E.
  - inversion IH; subst; constructor; [|assumption].
    simpl; intros [H | H]; [|tauto].
    subst; now rewrite Ascii.eqb_refl in E.
Qed.

Lemma join_nl_cons (l : str) (ls : list str) :
  ls <> [] -> PyStr.join_nl (l :: ls) = l ++ LF :: PyStr.join_nl ls.
Proof. destruct ls; [congruence | reflexivity]. Qed.

Lemma join_split (s : str) : PyStr.join_nl (PyStr.split_nl s) = s.
Proof.
  induction s as [|c s IH]; simpl; [reflexivity|].
  destruct (Ascii.eqb c LF) eqn:E.
  - apply Ascii.eqb_eq in E; subst.
    rewrite join_nl_cons by apply split_nl_not_nil.
    now rewrite IH.
  - destruct (PyStr.split_nl s) as [|l ls] eqn:Es.
    + now destruct (split_nl_not_nil s).
    + rewrite <- IH; destruct ls; reflexivity.
Qed.

Lemma join_nl_infix (ls : list str) (line : str) :
  In line ls -> exists a b, PyStr.join_nl ls = a ++ line ++ b.
Proof.
  induction ls as [|l ls IH]; [intros []|].
  intros [<- | H].
  - destruct ls as [|l2 ls]; [exists [], []; simpl; now rewrite app_nil_r|].
    now exists [], (LF :: PyStr.join_nl (l2 :: ls)).
  - destruct (IH H) as (a & b & E).
    rewrite join_nl_cons by (intros ->; destruct H).
    exists (l ++ LF :: a), b; rewrite E, <- app_assoc; reflexivity.
Qed.

(** Every line of a text is a stretch of the text. *)
Lemma split_nl_infix (s line : str) :
  In line (PyStr.split_nl s) -> exists a b, s = a ++ line ++ b.
Proof.
  intros H; apply join_nl_infix in H; now rewrite join_split in H.
Qed.

(** ** The wrapping loop *)

Lemma find_last_lt (c : ascii) (s : str) (i : nat) :
  PyStr.find_last c s = Some i -> i < length s.
Proof.
  revert i; induction s as [|x s IH]; simpl; intros i; [discriminate|].
  destruct (PyStr.find_last c s) as [j|].
  - intros [= <-]; specialize (IH j eq_refl); lia.
  - destruct (Ascii.eqb x c); [intros [= <-]; lia | discriminate].
Qed.

Lemma weight_cons (c : str) (l : list str) :
  TextWrap.weight (c :: l) = length c + 1 + TextWrap.weight l.
Proof. unfold TextWrap.weight; simpl; rewrite length_app; lia. Qed.

Lemma weight_app (a b : list str) :
  TextWrap.weight (a ++ b) = TextWrap.weight a + TextWrap.weight b.
Proof.
  unfold TextWrap.weight; rewrite concat_app, !length_app; lia.
Qed.

Lemma fill_line_spec (width : nat) (chunks cur_line : list str)
    (cur_len : nat) :
  exists taken rest,
    TextWrap.fill_line width cur_line cur_len chunks =
    (cur_line ++ taken, cur_len + length (concat taken), rest) /\
    chunks = taken ++ rest /\
    (cur_len <= width -> cur_len + length (concat taken) <= width) /\
    match rest with
    | [] => True
    | c :: _ => width < cur_len + length (concat taken) + length c
    end.
Proof.
  revert cur_line cur_len; induction chunks as [|top below IH];
    intros cur_line cur_len; simpl.
  - exists [], []; simpl; rewrite app_nil_r, Nat.add_0_r; auto.
  - destruct (cur_len + length top <=? width) eqn:E.
    + apply Nat.leb_le in E.
      destruct (IH (cur_line ++ [top]) (cur_len + length top))
        as (taken & rest & Hf & Hc & Hle & Hr).
      exists (top :: taken), rest; rewrite Hf; simpl concat.
      rewrite length_app, <- app_assoc, Nat.add_assoc; simpl.
      repeat split; [now rewrite Hc | lia |].
      destruct rest; [exact I | lia].
    + apply Nat.leb_gt in E.
      exists [], (top :: below); simpl; rewrite app_nil_r, Nat.add_0_r.
      repeat split; [lia | lia].
Qed.

Lemma handle_long_word_spec (top : str) (cur_line : list str)
    (cur_len width : nat) :
  0 < width ->
  exists e,
    TextWrap.handle_long_word top cur_line cur_len width =
    (cur_line ++ [firstn e top], skipn e top) /\
    e <= width - cur_len /\ (cur_len < width -> 1 <= e).
Proof.
  intros Hw; unfold TextWrap.handle_long_word.
  assert (E : (width <? 1) = false) by (apply Nat.ltb_ge; lia).
  rewrite E.
  destruct (width - cur_len <? length top);
    [|exists (width - cur_len); repeat split; lia].
  destruct (PyStr.rfind HYPHEN top (width - cur_len)) as [hyphen|] eqn:Er;
    [|exists (width - cur_len); repeat split; lia].
  destruct ((0 <? hyphen) && existsb _ (firstn hyphen top));
    [|exists (width - cur_len); repeat split; lia].
  apply find_last_lt in Er.
  pose proof (firstn_le_length (width - cur_len) top).
  exists (hyphen + 1); repeat split; lia.
Qed.

Lemma drop_trailing_cases (cur_line : list str) :
  (TextWrap.drop_trailing cur_line = cur_line /\
   (cur_line = [] \/
    exists init last, cur_line = init ++ [last] /\ PyStr.blank last = false))
  \/
  (exists init last,
     cur_line = init ++ [last] /\ PyStr.blank last = true /\
     TextWrap.drop_trailing cur_line = init).
Proof.
  destruct cur_line as [|c cl]; [left; auto|].
  destruct (@exists_last _ (c :: cl)) as (init & last & E); [discriminate|].
  rewrite E; unfold TextWrap.drop_trailing; rewrite rev_app_distr; simpl.
  destruct (PyStr.blank last) eqn:Eb.
  - right; exists init, last; now rewrite removelast_last.
  - left; split; [reflexivity|]; right; now exists init, last.
Qed.

Lemma drop_trailing_length (cur_line : list str) :
  length (concat (TextWrap.drop_trailing cur_line)) <= length (concat cur_line).
Proof.
  destruct (drop_trailing_cases cur_line)
    as [[-> _] | (init & last & -> & _ & ->)]; [lia|].
  rewrite concat_app, length_app; lia.
Qed.

(** What one pass of the outer loop does: the chunks [taken] fill the
    line; then either nothing is split, or the next chunk is longer
    than a line and its first [e] characters end the line. *)
Lemma wrap_line_cases (width : nat) (top : str) (below lines : list str) :
  0 < width ->
  exists chunks1 taken rest cur_line' chunks3,
    (chunks1 = top :: below \/
     (chunks1 = below /\ PyStr.blank top = true /\ lines <> [])) /\
    chunks1 = taken ++ rest /\
    length (concat taken) <= width /\
    ((cur_line' = taken /\ chunks3 = rest /\
      match rest with
      | [] => True
      | c :: _ => width < length (concat taken) + length c /\ length c <= width
      end)
     \/
     (exists top2 below2 e,
        rest = top2 :: below2 /\ width < length top2 /\
        e <= width - length (concat taken) /\
        (length (concat taken) < width -> 1 <= e) /\
        cur_line' = taken ++ [firstn e top2] /\
        chunks3 = skipn e top2 :: below2)) /\
    TextWrap.wrap_line width top below lines =
    (chunks3,
     match TextWrap.drop_trailing cur_line' with
     | [] => lines
     | _ :: _ => lines ++ [concat (TextWrap.drop_trailing cur_line')]
     end).
Proof.
  intros Hw; unfold TextWrap.wrap_line.
  set (chunks1 := if PyStr.blank top && negb (length lines =? 0)
                  then below else top :: below).
  assert (H1 : chunks1 = top :: below \/
               (chunks1 = below /\ PyStr.blank top = true /\ lines <> [])).
  { subst chunks1; destruct (PyStr.blank top); simpl; [|now left].
    destruct lines; simpl; [now left | right; repeat split; discriminate]. }
  destruct (fill_line_spec width chunks1 [] 0)
    as (taken & rest & Hf & Hc & Hle & Hr).
  simpl in Hf, Hle, Hr; rewrite Hf; cbv beta iota.
  specialize (Hle (Nat.le_0_l _)).
  destruct rest as [|top2 below2].
  - exists chunks1, taken, [], taken, []; repeat split; auto.
  - destruct (width <? length top2) eqn:E.
    + apply Nat.ltb_lt in E.
      destruct (handle_long_word_spec top2 taken (length (concat taken)) width Hw)
        as (e & He & Hle' & Hpos).
      rewrite He; cbv beta iota.
      exists chunks1, taken, (top2 :: below2), (taken ++ [firstn e top2]),
        (skipn e top2 :: below2).
      repeat split; auto.
      right; exists top2, below2, e; repeat split; auto.
    + apply Nat.ltb_ge in E.
      exists chunks1, taken, (top2 :: below2), taken, (top2 :: below2).
      repeat split; auto.
Qed.

(** An invariant of the passes holds of what the loop returns. *)
Lemma wrap_loop_invariant (width : nat) (I : list str -> list str -> Prop) :
  (forall top below lines,
     I (top :: below) lines ->
     I (fst (TextWrap.wrap_line width top below lines))
       (snd (TextWrap.wrap_line width top below lines))) ->
  forall fuel chunks lines r,
    I chunks lines ->
    TextWrap.wrap_loop fuel width chunks lines = Some r -> I [] r.
Proof.
  intros Hstep; induction fuel as [|fuel IH]; intros chunks lines r HI;
    destruct chunks as [|top below]; simpl; try discriminate;
    try (intros [= <-]; exact HI).
  specialize (Hstep top below lines HI).
  destruct (TextWrap.wrap_line width top below lines) as [chunks' lines'].
  apply IH; exact Hstep.
Qed.

Lemma wrap_line_weight (width : nat) (top : str) (below lines : list str) :
  0 < width ->
  TextWrap.weight (fst (TextWrap.wrap_line width top below lines)) <
  TextWrap.weight (top :: below).
Proof.
  intros Hw.
  destruct (wrap_line_cases width top below lines Hw)
    as (chunks1 & taken & rest & cl & chunks3 & H1 & Hc & Hle & Hcase & ->).
  simpl fst.
  assert (H1' : TextWrap.weight chunks1 <= TextWrap.weight (top :: below) /\
                (chunks1 = top :: below \/
                 TextWrap.weight chunks1 < TextWrap.weight (top :: below))).
  { destruct H1 as [-> | (-> & _)]; [split; auto|].
    rewrite weight_cons; split; [|right]; lia. }
  destruct H1' as [Hw1 Hw1']; rewrite Hc in Hw1.
  rewrite weight_app in Hw1.
  destruct Hcase as [(-> & -> & Hr)
                    | (top2 & below2 & e & -> & Hlong & He & Hpos & -> & ->)].
  - destruct taken as [|t taken].
    + simpl in *; destruct Hw1' as [E | Hlt]; [|now rewrite <- Hc].
      rewrite E in Hc; subst rest; simpl in Hr; lia.
    + rewrite weight_cons in Hw1; lia.
  - rewrite weight_cons in *.
    pose proof (length_skipn e top2).
    destruct taken as [|t taken].
    + simpl in *; lia.
    + rewrite weight_cons in Hw1; lia.
Qed.

(** With a positive width and fuel above the weight of the chunks the
    loop returns. *)
Lemma wrap_loop_returns (width fuel : nat) (chunks lines : list str) :
  0 < width -> TextWrap.weight chunks < fuel ->
  exists r, TextWrap.wrap_loop fuel width chunks lines = Some r.
Proof.
  intros Hw; revert chunks lines; induction fuel as [|fuel IH];
    intros chunks lines Hfuel; [lia|].
  destruct chunks as [|top below]; simpl; [eauto|].
  pose proof (wrap_line_weight width top below lines Hw) as Hdec.
  destruct (TextWrap.wrap_line width top below lines) as [chunks' lines'].
  apply IH; simpl in Hdec; lia.
Qed.

Lemma wrap_chunks_returns (width : nat) (chunks : list str) :
  0 < width -> exists r, TextWrap.wrap_chunks width chunks = Some r.
Proof.
  intros Hw; unfold TextWrap.wrap_chunks.
  destruct (width <=? 0) eqn:E; [apply Nat.leb_le in E; lia|].
  apply wrap_loop_returns; [assumption | lia].
Qed.

(** ** The chunks of [wordsep_re] *)

Lemma count_while_firstn (p : ascii -> bool) (s : str) :
  forallb p (firstn (TextWrap.count_while p s) s) = true.
Proof.
  induction s as [|c s IH]; simpl; [reflexivity|].
  destruct (p c) eqn:E; simpl; [now rewrite E|reflexivity].
Qed.

Lemma count_while_skipn (p : ascii -> bool) (s : str) :
  match skipn (TextWrap.count_while p s) s with
  | [] => True
  | c :: _ => p c = false
  end.
Proof.
  induction s as [|c s IH]; simpl; [exact I|].
  destruct (p c) eqn:E; simpl; assumption.
Qed.

Lemma count_while_le (p : ascii -> bool) (s : str) :
  TextWrap.count_while p s <= length s.
Proof.
  induction s as [|c s IH]; simpl; [lia|].
  destruct (p c); simpl; lia.
Qed.

(** The run stops before a character that fails the test. *)
Lemma count_while_app (p : ascii -> bool) (a b : str) :
  match b with [] => False | x :: _ => p x = false end ->
  TextWrap.count_while p (a ++ b) <= length a.
Proof.
  intros Hb; induction a as [|c a IH]; simpl.
  - destruct b as [|x b]; [destruct Hb|]; simpl; now rewrite Hb.
  - destruct (p c); lia.
Qed.

Lemma hyphen_not_ws (c : ascii) :
  TextWrap.is_hyphen c = true -> TextWrap.is_ws c = false.
Proof.
  unfold TextWrap.is_hyphen; intros H; apply Ascii.eqb_eq in H; now subst.
Qed.

Lemma em_dash_spec (rest : str) (k : nat) :
  TextWrap.em_dash rest = Some k ->
  2 <= k /\ k = TextWrap.count_while TextWrap.is_hyphen rest.
Proof.
  unfold TextWrap.em_dash.
  destruct (2 <=? TextWrap.count_while TextWrap.is_hyphen rest) eqn:E;
    simpl; [|discriminate].
  destruct (match skipn _ rest with [] => false | c :: _ => _ end);
    [|discriminate].
  intros [= <-]; apply Nat.leb_le in E; auto.
Qed.

Lemma hyphen_break_head (before rest : str) :
  TextWrap.hyphen_break before rest = true ->
  exists h after, rest = h :: after /\ TextWrap.is_hyphen h = true.
Proof.
  destruct rest as [|h after]; simpl; [discriminate|].
  destruct (TextWrap.is_hyphen h) eqn:E; [|discriminate].
  intros _; now exists h, after.
Qed.

Lemma word_tail_no_ws (rest before : str) :
  no_ws (firstn (TextWrap.word_tail before rest) rest) = true /\
  TextWrap.word_tail before rest <= length rest.
Proof.
  revert before; induction rest as [|c rest IH]; intros before.
  - simpl; auto.
  - unfold TextWrap.word_tail; fold TextWrap.word_tail.
    destruct (TextWrap.hyphen_break before (c :: rest)) eqn:Eh.
    + apply hyphen_break_head in Eh as (h & after & [= <- <-] & Hh).
      simpl; rewrite (hyphen_not_ws c Hh); simpl; split; [reflexivity | lia].
    + destruct (TextWrap.is_ws c) eqn:Ec; [simpl; split; [reflexivity | lia]|].
      destruct (TextWrap.wp_behind before &&
                match TextWrap.em_dash (c :: rest) with
                | Some _ => true
                | None => false
                end); [simpl; split; [reflexivity | lia]|].
      destruct (IH (c :: before)) as [H1 H2].
      simpl; rewrite Ec; simpl; split; [exact H1 | lia].
Qed.

(** Every match takes a character. *)
Lemma match_len_pos (before : str) (c : ascii) (rest' : str) :
  1 <= TextWrap.match_len before c rest'.
Proof.
  unfold TextWrap.match_len.
  destruct (TextWrap.is_ws c); [lia|].
  destruct (if TextWrap.wp_behind before
            then TextWrap.em_dash (c :: rest') else None) as [k|] eqn:E;
    [|lia].
  destruct (TextWrap.wp_behind before); [|discriminate].
  apply em_dash_spec in E; lia.
Qed.

(** A match is whitespace up to the next character that is not, or it
    has no whitespace at all. *)
Lemma match_len_uniform (before : str) (c : ascii) (rest' : str) :
  let n := TextWrap.match_len before c rest' in
  n <= length (c :: rest') /\
  if TextWrap.is_ws c
  then all_ws (firstn n (c :: rest')) = true /\
       match skipn n (c :: rest') with
       | [] => True
       | x :: _ => TextWrap.is_ws x = false
       end
  else no_ws (firstn n (c :: rest')) = true.
Proof.
  unfold TextWrap.match_len.
  destruct (TextWrap.is_ws c) eqn:Ec.
  - cbv zeta; split; [pose proof (count_while_le TextWrap.is_ws rest');
                      simpl; lia|].
    split.
    + unfold all_ws; simpl; rewrite Ec; simpl.
      apply count_while_firstn.
    + simpl; apply count_while_skipn.
  - destruct (if TextWrap.wp_behind before
              then TextWrap.em_dash (c :: rest') else None) as [k|] eqn:E.
    + destruct (TextWrap.wp_behind before); [|discriminate].
      apply em_dash_spec in E as [_ ->]; cbv zeta; split.
      * apply count_while_le.
      * pose proof (count_while_firstn TextWrap.is_hyphen (c :: rest')) as H.
        unfold no_ws; rewrite forallb_forall in *.
        intros x Hx; now rewrite (hyphen_not_ws x (H x Hx)).
    + destruct (word_tail_no_ws rest' (c :: before)) as [H1 H2].
      cbv zeta; split; [simpl; lia|].
      unfold no_ws in *; simpl; rewrite Ec; simpl; exact H1.
Qed.

Lemma split_from_concat (fuel : nat) (before rest : str) :
  length rest <= fuel ->
  concat (TextWrap.split_from fuel before rest) = rest.
Proof.
  revert before rest; induction fuel as [|fuel IH]; intros before rest Hf.
  - destruct rest; [reflexivity | simpl in Hf; lia].
  - destruct rest as [|c rest']; [reflexivity|].
    unfold TextWrap.split_from; fold TextWrap.split_from.
    pose proof (match_len_pos before c rest') as Hpos.
    set (n := TextWrap.match_len before c rest') in *.
    simpl concat; rewrite IH.
    + apply firstn_skipn.
    + rewrite length_skipn; cbn [length] in *; lia.
Qed.

(** The chunks of a text, put end to end, are the text. *)
Lemma split_concat (text : str) : concat (TextWrap.split text) = text.
Proof. apply split_from_concat; lia. Qed.

(** Chunks are not empty, each is whitespace or free of it, a
    whitespace chunk is followed by one that is not. *)
Lemma split_from_uniform (fuel : nat) (before rest : str) :
  length rest <= fuel ->
  let chunks := TextWrap.split_from fuel before rest in
  Forall (fun c => c <> [] /\ (all_ws c = true \/ no_ws c = true)) chunks /\
  separated chunks /\
  match chunks, rest with
  | c :: _, x :: _ => TextWrap.is_ws x = false -> no_ws c = true
  | _, _ => True
  end.
Proof.
  revert before rest; induction fuel as [|fuel IH]; intros before rest Hf.
  - destruct rest; simpl; auto.
  - destruct rest as [|c rest']; [simpl; auto|].
    unfold TextWrap.split_from; fold TextWrap.split_from.
    pose proof (match_len_pos before c rest') as Hpos.
    pose proof (match_len_uniform before c rest') as Huni.
    set (n := TextWrap.match_len before c rest') in *.
    cbv zeta in Huni; destruct Huni as [Hn Huni].
    assert (Hlen : length (skipn n (c :: rest')) <= fuel)
      by (rewrite length_skipn; cbn [length] in *; lia).
    specialize (IH (rev (firstn n (c :: rest')) ++ before)
                  (skipn n (c :: rest')) Hlen).
    cbv zeta in IH; destruct IH as (IH1 & IH2 & IH3).
    cbv zeta; repeat split.
    + constructor; [|exact IH1]; split.
      * destruct n; [lia | discriminate].
      * destruct (TextWrap.is_ws c); [left; apply Huni | right; exact Huni].
    + destruct (TextWrap.split_from fuel _ (skipn n (c :: rest')))
        as [|c2 tl] eqn:E; [exact I|].
      intros Ha Hb.
      destruct (TextWrap.is_ws c) eqn:Ec.
      * destruct Huni as [_ Hnext].
        destruct (skipn n (c :: rest')) as [|x rest2] eqn:Es;
          [destruct fuel; discriminate E|].
        specialize (IH3 Hnext).
        inversion IH1 as [|? ? [Hne _] _]; subst.
        destruct c2 as [|y c2]; [congruence|].
        unfold all_ws, no_ws in *; simpl in *.
        destruct (TextWrap.is_ws y); discriminate.
      * destruct n; [lia|]; unfold all_ws, no_ws in *; simpl in *.
        rewrite Ec in Ha; discriminate.
    + exact IH2.
    + intros Hc; now rewrite Hc in Huni.
Qed.

(** ** [_munge_whitespace] *)

Lemma tab_step_pos (col : nat) :
  1 <= TextWrap.tabsize - col mod TextWrap.tabsize.
Proof.
  pose proof (Nat.mod_upper_bound col TextWrap.tabsize).
  unfold TextWrap.tabsize in *; lia.
Qed.

Lemma expandtabs_from_cons (c : ascii) (s : str) (col : nat) :
  PyStr.expandtabs_from TextWrap.tabsize col (c :: s) =
  if Ascii.eqb c TAB
  then repeat SP (tab_stop col) ++
       PyStr.expandtabs_from TextWrap.tabsize (col + tab_stop col) s
  else c :: PyStr.expandtabs_from TextWrap.tabsize (next_col c col) s.
Proof. reflexivity. Qed.

Lemma tab_stop_spaces (col : nat) :
  exists k, repeat SP (tab_stop col) = SP :: repeat SP k /\
            repeat SP (tab_stop col) = repeat SP k ++ [SP].
Proof.
  pose proof (tab_step_pos col) as Hk; unfold tab_stop.
  destruct (TextWrap.tabsize - col mod TextWrap.tabsize) as [|k]; [lia|].
  exists k; split; [reflexivity|].
  now rewrite <- repeat_cons.
Qed.

Lemma expandtabs_from_app (a b : str) (col : nat) :
  exists col',
    PyStr.expandtabs_from TextWrap.tabsize col (a ++ b) =
    PyStr.expandtabs_from TextWrap.tabsize col a ++
    PyStr.expandtabs_from TextWrap.tabsize col' b.
Proof.
  revert col; induction a as [|c a IH]; intros col; [now exists col|].
  rewrite <- app_comm_cons, !expandtabs_from_cons.
  destruct (Ascii.eqb c TAB).
  - destruct (IH (col + tab_stop col)) as [col' ->].
    exists col'; now rewrite <- app_assoc.
  - destruct (IH (next_col c col)) as [col' ->].
    now exists col'.
Qed.

Lemma no_ws_not_tab (c : ascii) :
  TextWrap.is_ws c = false -> Ascii.eqb c TAB = false.
Proof.
  intros H; destruct (Ascii.eqb c TAB) eqn:E; [|reflexivity].
  apply Ascii.eqb_eq in E; subst; discriminate H.
Qed.

(** A stretch without whitespace goes through unchanged. *)
Lemma expandtabs_from_no_ws (w : str) (col : nat) :
  no_ws w = true -> PyStr.expandtabs_from TextWrap.tabsize col w = w.
Proof.
  revert col; induction w as [|c w IH]; intros col; [reflexivity|].
  simpl no_ws; intros H; apply andb_true_iff in H as [Hc Hw].
  apply negb_true_iff in Hc.
  rewrite expandtabs_from_cons, (no_ws_not_tab c Hc), IH by assumption.
  reflexivity.
Qed.

Lemma translate_ws_no_ws (w : str) :
  no_ws w = true -> TextWrap.translate_ws w = w.
Proof.
  induction w as [|c w IH]; simpl; [reflexivity|].
  intros H; apply andb_true_iff in H as [Hc Hw].
  apply negb_true_iff in Hc; rewrite Hc, IH by assumption; reflexivity.
Qed.

Lemma translate_ws_app (a b : str) :
  TextWrap.translate_ws (a ++ b) =
  TextWrap.translate_ws a ++ TextWrap.translate_ws b.
Proof. apply map_app. Qed.

Lemma starts_ws_expand (post : str) (col : nat) :
  starts_ws post ->
  starts_ws (TextWrap.translate_ws
               (PyStr.expandtabs_from TextWrap.tabsize col post)).
Proof.
  destruct post as [|c post]; [simpl; auto|]; intros Hc; simpl in Hc.
  rewrite expandtabs_from_cons.
  destruct (Ascii.eqb c TAB).
  - destruct (tab_stop_spaces col) as (k & -> & _); reflexivity.
  - simpl; rewrite Hc; reflexivity.
Qed.

Lemma ends_ws_expand (pre : str) (col : nat) :
  ends_ws pre ->
  ends_ws (TextWrap.translate_ws
             (PyStr.expandtabs_from TextWrap.tabsize col pre)).
Proof.
  intros [-> | (q & z & -> & Hz)]; [now left|]; right.
  destruct (expandtabs_from_app q [z] col) as [col' ->].
  rewrite translate_ws_app, expandtabs_from_cons.
  destruct (Ascii.eqb z TAB).
  - destruct (tab_stop_spaces col') as (k & _ & ->).
    change (PyStr.expandtabs_from TextWrap.tabsize (col' + tab_stop col') [])
      with (@nil ascii).
    rewrite app_nil_r, translate_ws_app, app_assoc.
    now eexists _, SP.
  - simpl; rewrite Hz; now eexists _, SP.
Qed.

(** A word of a line is a word of the munged line. *)
Lemma word_at_munge (line pre w post : str) :
  word_at line pre w post ->
  exists pre' post', word_at (TextWrap.munge_whitespace line) pre' w post'.
Proof.
  intros (-> & Hne & Hw & Hpre & Hpost).
  unfold TextWrap.munge_whitespace, PyStr.expandtabs.
  destruct (expandtabs_from_app pre (w ++ post) 0) as [col1 ->].
  destruct (expandtabs_from_app w post col1) as [col2 ->].
  rewrite (expandtabs_from_no_ws w col1 Hw), !translate_ws_app,
    (translate_ws_no_ws w Hw).
  eexists _, _; repeat split; eauto using starts_ws_expand, ends_ws_expand.
Qed.

Lemma expandtabs_from_chars (text : str) (col : nat) (x : ascii) :
  In x (PyStr.expandtabs_from TextWrap.tabsize col text) ->
  x = SP \/ In x text.
Proof.
  revert col; induction text as [|d text IH]; intros col; [intros []|].
  rewrite expandtabs_from_cons.
  destruct (Ascii.eqb d TAB).
  - rewrite in_app_iff; intros [H | H].
    + apply repeat_spec in H; now left.
    + destruct (IH _ H); [now left | right; now right].
  - intros [H | H]; [right; now left|].
    destruct (IH _ H); [now left | right; now right].
Qed.

Lemma expandtabs_from_keeps (text : str) (col : nat) (x : ascii) :
  In x text -> TextWrap.is_ws x = false ->
  In x (PyStr.expandtabs_from TextWrap.tabsize col text).
Proof.
  intros Hin Hx; revert col Hin; induction text as [|d text IH];
    intros col; [intros []|].
  rewrite expandtabs_from_cons; intros [-> | H].
  - rewrite (no_ws_not_tab x Hx); now left.
  - destruct (Ascii.eqb d TAB); [apply in_or_app|]; right; now apply IH.
Qed.

(** The characters of a munged text: spaces, and what in the text is
    not whitespace. *)
Lemma munge_chars (text : str) (c : ascii) :
  In c (TextWrap.munge_whitespace text) ->
  c = SP \/ (In c text /\ TextWrap.is_ws c = false).
Proof.
  unfold TextWrap.munge_whitespace, PyStr.expandtabs, TextWrap.translate_ws.
  rewrite in_map_iff; intros (x & Hx & Hin).
  destruct (TextWrap.is_ws x) eqn:E; [now left|]; subst c.
  apply expandtabs_from_chars in Hin as [-> | Hin]; [discriminate E|].
  now right.
Qed.

Lemma munge_keeps (text : str) (x : ascii) :
  In x text -> TextWrap.is_ws x = false ->
  In x (TextWrap.munge_whitespace text).
Proof.
  intros Hin Hx.
  unfold TextWrap.munge_whitespace, PyStr.expandtabs, TextWrap.translate_ws.
  rewrite in_map_iff; exists x; rewrite Hx; split; [reflexivity|].
  now apply expandtabs_from_keeps.
Qed.

(** In a munged text the only whitespace is the space. *)
Lemma munge_spaced (text : str) (c : ascii) :
  In c (TextWrap.munge_whitespace text) -> TextWrap.is_ws c = true -> c = SP.
Proof.
  intros H Hc; destruct (munge_chars text c H) as [-> | [_ E]];
    [reflexivity | congruence].
Qed.

(** A text whose only whitespace is the space is its own munging. *)
Lemma munge_fixed (text : str) :
  (forall c, In c text -> TextWrap.is_ws c = true -> c = SP) ->
  TextWrap.munge_whitespace text = text.
Proof.
  unfold TextWrap.munge_whitespace, PyStr.expandtabs; generalize 0.
  induction text as [|c text IH]; intros col H; [reflexivity|].
  assert (Hc : Ascii.eqb c TAB = false).
  { destruct (Ascii.eqb c TAB) eqn:E; [|reflexivity].
    apply Ascii.eqb_eq in E; subst.
    now specialize (H TAB (or_introl eq_refl) eq_refl). }
  rewrite expandtabs_from_cons, Hc; simpl.
  rewrite IH by (intros; apply H; simpl; auto).
  destruct (TextWrap.is_ws c) eqn:E; [|reflexivity].
  now rewrite (H c (or_introl eq_refl) E).
Qed.

(** ** What a pass of the loop emits and keeps *)

Lemma drop_trailing_incl (cur_line : list str) (p : str) :
  In p (TextWrap.drop_trailing cur_line) -> In p cur_line.
Proof.
  destruct (drop_trailing_cases cur_line)
    as [[-> _] | (init & last & -> & _ & ->)]; [auto|].
  intros H; apply in_or_app; now left.
Qed.

Lemma drop_trailing_keeps (cur_line : list str) (p : str) :
  In p cur_line -> PyStr.blank p = false ->
  In p (TextWrap.drop_trailing cur_line).
Proof.
  destruct (drop_trailing_cases cur_line)
    as [[-> _] | (init & last & -> & Hb & ->)]; [auto|].
  intros H Hp; apply in_app_or in H as [H | [<- | []]]; [assumption|].
  congruence.
Qed.

Lemma wrap_line_facts (width : nat) (top : str) (below lines : list str) :
  0 < width ->
  exists pieces chunks3,
    TextWrap.wrap_line width top below lines =
    (chunks3,
     match pieces with [] => lines | _ :: _ => lines ++ [concat pieces] end) /\
    length (concat pieces) <= width /\
    (forall p, In p pieces ->
       In p (top :: below) \/
       (p <> [] /\ exists c e, In c (top :: below) /\ p = firstn e c)) /\
    (forall c, In c chunks3 ->
       In c (top :: below) \/
       exists c0 e, In c0 (top :: below) /\ e < length c0 /\ c = skipn e c0) /\
    (forall c x, In c (top :: below) -> In x c -> PyStr.isspace x = false ->
       (exists p, In p pieces /\ In x p) \/
       (exists c', In c' chunks3 /\ In x c')) /\
    (forall c, In c (top :: below) -> PyStr.blank c = false ->
       length c <= width -> In c pieces \/ In c chunks3).
Proof.
  intros Hw.
  destruct (wrap_line_cases width top below lines Hw)
    as (chunks1 & taken & rest & cl & chunks3 & H1 & Hc & Hle & Hcase & Heq).
  exists (TextWrap.drop_trailing cl), chunks3.
  assert (Hsub : forall c, In c chunks1 -> In c (top :: below))
    by (destruct H1 as [-> | (-> & _)]; simpl; auto).
  assert (Hin1 : forall c, In c (top :: below) -> PyStr.blank c = false ->
                           In c chunks1).
  { destruct H1 as [-> | (-> & Hb & _)]; [auto|].
    intros c [<- | H] Hc'; [congruence | assumption]. }
  assert (Htaken : forall c, In c taken -> In c chunks1)
    by (intros c H; rewrite Hc; apply in_or_app; now left).
  assert (Hrest : forall c, In c rest -> In c chunks1)
    by (intros c H; rewrite Hc; apply in_or_app; now right).
  split; [exact Heq|].
  destruct Hcase as [(-> & -> & Hr)
                    | (top2 & below2 & e & -> & Hlong & He & Hpos & -> & ->)].
  - (* nothing is split *)
    split; [pose proof (drop_trailing_length taken); lia|].
    split; [intros p Hp; left; auto using drop_trailing_incl|].
    split; [intros c H; left; auto|].
    split.
    + intros c x Hin Hx Hsp.
      pose proof (not_blank_in c x Hx Hsp) as Hnb.
      specialize (Hin1 c Hin Hnb); rewrite Hc in Hin1.
      apply in_app_or in Hin1 as [H | H].
      * left; exists c; split; [now apply drop_trailing_keeps | assumption].
      * right; now exists c.
    + intros c Hin Hnb _.
      specialize (Hin1 c Hin Hnb); rewrite Hc in Hin1.
      apply in_app_or in Hin1 as [H | H];
        [left; now apply drop_trailing_keeps | now right].
  - (* the chunk [top2] is longer than a line *)
    assert (Hlen : length (concat (taken ++ [firstn e top2])) <= width).
    { rewrite concat_app, length_app; simpl; rewrite app_nil_r.
      pose proof (firstn_le_length e top2); lia. }
    split; [pose proof (drop_trailing_length (taken ++ [firstn e top2])); lia|].
    split.
    + intros p Hp.
      destruct (drop_trailing_cases (taken ++ [firstn e top2]))
        as [[E Hlast] | (init & last & E & _ & E')].
      * rewrite E in Hp; apply in_app_or in Hp as [H | [<- | []]];
          [left; auto|].
        destruct Hlast as [Hnil | (init & last & Hsplit & Hnb)];
          [now apply app_eq_nil in Hnil as [_ Hnil]|].
        apply app_inj_tail in Hsplit as [_ <-].
        right; split; [intros Hp'; rewrite Hp' in Hnb; discriminate|].
        exists top2, e; split; [apply Hsub, Hrest; now left | reflexivity].
      * rewrite E' in Hp; apply app_inj_tail in E as [<- _]; left; auto.
    + split.
      * intros c [<- | H].
        -- right; exists top2, e; split; [apply Hsub, Hrest; now left|].
           split; [lia | reflexivity].
        -- left; apply Hsub, Hrest; now right.
      * split.
        -- intros c x Hin Hx Hsp.
           pose proof (not_blank_in c x Hx Hsp) as Hnb.
           specialize (Hin1 c Hin Hnb); rewrite Hc in Hin1.
           apply in_app_or in Hin1 as [H | [<- | H]].
           ++ left; exists c; split; [|assumption].
              apply drop_trailing_keeps; [apply in_or_app; now left | exact Hnb].
           ++ rewrite <- (firstn_skipn e top2) in Hx.
              apply in_app_or in Hx as [Hx | Hx].
              ** left; exists (firstn e top2); split; [|assumption].
                 apply drop_trailing_keeps;
                   [apply in_or_app; right; now left|].
                 exact (not_blank_in _ x Hx Hsp).
              ** right; exists (skipn e top2); split; [now left | assumption].
           ++ right; exists c; split; [now right | assumption].
        -- intros c Hin Hnb Hfit.
           specialize (Hin1 c Hin Hnb); rewrite Hc in Hin1.
           apply in_app_or in Hin1 as [H | [<- | H]].
           ++ left; apply drop_trailing_keeps;
                [apply in_or_app; now left | exact Hnb].
           ++ lia.
           ++ right; now right.
Qed.

Lemma in_firstn (n : nat) (l : str) (x : ascii) : In x (firstn n l) -> In x l.
Proof.
  intros H; rewrite <- (firstn_skipn n l); apply in_or_app; now left.
Qed.

Lemma in_skipn (n : nat) (l : str) (x : ascii) : In x (skipn n l) -> In x l.
Proof.
  intros H; rewrite <- (firstn_skipn n l); apply in_or_app; now right.
Qed.

Section Loop.

Variable width : nat.
Hypothesis width_pos : 0 < width.

(** No line the loop adds is longer than [width]. *)
Lemma wrap_loop_width (fuel : nat) (chunks lines r : list str) :
  Forall (fun l => length l <= width) lines ->
  TextWrap.wrap_loop fuel width chunks lines = Some r ->
  Forall (fun l => length l <= width) r.
Proof.
  intros Hl H.
  refine (wrap_loop_invariant width
            (fun _ ls => Forall (fun l => length l <= width) ls)
            _ fuel chunks lines r Hl H).
  clear - width_pos; intros top below ls HI.
  destruct (wrap_line_facts width top below ls width_pos)
    as (pieces & chunks3 & -> & Hlen & _); simpl.
  destruct pieces; [assumption|].
  apply Forall_app; split; [assumption | now constructor].
Qed.

(** The characters of the lines are characters of the chunks. *)
Lemma wrap_loop_chars (P : ascii -> Prop) (fuel : nat)
    (chunks lines r : list str) :
  Forall (Forall P) chunks -> Forall (Forall P) lines ->
  TextWrap.wrap_loop fuel width chunks lines = Some r ->
  Forall (Forall P) r.
Proof.
  intros Hc Hl H.
  refine (proj2 (wrap_loop_invariant width
           (fun cs ls => Forall (Forall P) cs /\ Forall (Forall P) ls)
           _ fuel chunks lines r (conj Hc Hl) H)).
  clear - width_pos; intros top below ls [Hcs Hls].
  destruct (wrap_line_facts width top below ls width_pos)
    as (pieces & chunks3 & -> & _ & Hp & Hk & _); simpl.
  rewrite Forall_forall in Hcs.
  split.
  - apply Forall_forall; intros c Hc.
    destruct (Hk c Hc) as [H | (c0 & e & H & _ & ->)]; [auto|].
    apply Forall_forall; intros x Hx; apply in_skipn in Hx.
    specialize (Hcs c0 H); rewrite Forall_forall in Hcs; auto.
  - destruct pieces as [|p ps]; [assumption|].
    apply Forall_app; split; [assumption|]; constructor; [|constructor].
    apply Forall_concat, Forall_forall; intros q Hq.
    destruct (Hp q Hq) as [H | (_ & c0 & e & H & ->)]; [auto|].
    apply Forall_forall; intros x Hx; apply in_firstn in Hx.
    specialize (Hcs c0 H); rewrite Forall_forall in Hcs; auto.
Qed.

(** When no chunk is empty the loop adds no empty line. *)
Lemma wrap_loop_nonempty (fuel : nat) (chunks lines r : list str) :
  Forall (fun c => c <> []) chunks -> Forall (fun l => l <> []) lines ->
  TextWrap.wrap_loop fuel width chunks lines = Some r ->
  Forall (fun l => l <> []) r.
Proof.
  intros Hc Hl H.
  refine (proj2 (wrap_loop_invariant width
           (fun cs ls => Forall (fun c => c <> []) cs /\
                         Forall (fun l => l <> []) ls)
           _ fuel chunks lines r (conj Hc Hl) H)).
  clear - width_pos; intros top below ls [Hcs Hls].
  destruct (wrap_line_facts width top below ls width_pos)
    as (pieces & chunks3 & -> & _ & Hp & Hk & _); simpl.
  rewrite Forall_forall in Hcs.
  split.
  - apply Forall_forall; intros c Hc.
    destruct (Hk c Hc) as [H | (c0 & e & H & He & ->)]; [auto|].
    intros E; apply (f_equal (@length ascii)) in E.
    rewrite length_skipn in E; simpl in E; lia.
  - destruct pieces as [|p ps]; [assumption|].
    apply Forall_app; split; [assumption|]; constructor; [|constructor].
    assert (Hp' : p <> [])
      by (destruct (Hp p (or_introl eq_refl)) as [H | [H _]]; auto).
    simpl; destruct p; [congruence | discriminate].
Qed.

(** A character that is not whitespace keeps the result from being
    empty. *)
Lemma wrap_loop_some_line (fuel : nat) (chunks lines r : list str) :
  lines <> [] \/
  (exists c x, In c chunks /\ In x c /\ PyStr.isspace x = false) ->
  TextWrap.wrap_loop fuel width chunks lines = Some r ->
  r <> [].
Proof.
  intros HI H.
  assert (Hr : r <> [] \/
               exists c x, In c (@nil str) /\ In x c /\
                           PyStr.isspace x = false).
  { refine (wrap_loop_invariant width
              (fun cs ls => ls <> [] \/
                 exists c x, In c cs /\ In x c /\ PyStr.isspace x = false)
              _ fuel chunks lines r HI H).
    clear - width_pos; intros top below ls HI.
    destruct (wrap_line_facts width top below ls width_pos)
      as (pieces & chunks3 & -> & _ & _ & _ & Hx & _); simpl.
    destruct HI as [Hne | (c & x & Hc & Hin & Hsp)].
    - left; destruct pieces; [assumption|].
      intros E; now apply app_eq_nil in E as [_ E].
    - destruct (Hx c x Hc Hin Hsp) as [(p & Hp & _) | (c' & Hc' & Hin')].
      + left; destruct pieces; [destruct Hp|].
        intros E; now apply app_eq_nil in E as [_ E].
      + right; now exists c', x. }
  destruct Hr as [Hr | (c & x & [] & _)]; exact Hr.
Qed.

(** A chunk that fits a line and is not blank ends up, whole, in a
    line. *)
Lemma wrap_loop_places (w : str) (fuel : nat) (chunks lines r : list str) :
  PyStr.blank w = false -> length w <= width ->
  (exists line, In line lines /\ infix w line) \/ In w chunks ->
  TextWrap.wrap_loop fuel width chunks lines = Some r ->
  exists line, In line r /\ infix w line.
Proof.
  intros Hnb Hfit HI H.
  assert (Hr : (exists line, In line r /\ infix w line) \/ In w []).
  { refine (wrap_loop_invariant width
              (fun cs ls => (exists line, In line ls /\ infix w line) \/
                            In w cs)
              _ fuel chunks lines r HI H).
    clear - Hnb Hfit width_pos; intros top below ls HI.
    destruct (wrap_line_facts width top below ls width_pos)
      as (pieces & chunks3 & -> & _ & _ & _ & _ & Hplace); simpl.
    destruct HI as [(line & Hline & Hinf) | Hin].
    - left; exists line; split; [|assumption].
      destruct pieces; [assumption | apply in_or_app; now left].
    - destruct (Hplace w Hin Hnb Hfit) as [Hp | Hc]; [|now right].
      left; exists (concat pieces); split.
      + destruct pieces; [destruct Hp | apply in_or_app; right; now left].
      + apply in_split in Hp as (l1 & l2 & ->).
        exists (concat l1), (concat l2).
        now rewrite concat_app. }
  destruct Hr as [Hr | []]; exact Hr.
Qed.

End Loop.

(** ** A word without a hyphen is one chunk *)

Lemma word_tail_eq (before rest : str) :
  TextWrap.word_tail before rest =
  if TextWrap.hyphen_break before rest then 1
  else match rest with
       | [] => 0
       | c :: rest' =>
           if TextWrap.is_ws c then 0
           else if TextWrap.wp_behind before &&
                   match TextWrap.em_dash rest with
                   | Some _ => true
                   | None => false
                   end
           then 0
           else S (TextWrap.word_tail (c :: before) rest')
       end.
Proof. destruct rest; reflexivity. Qed.

Lemma em_dash_none (c : ascii) (rest : str) :
  TextWrap.is_hyphen c = false -> TextWrap.em_dash (c :: rest) = None.
Proof. intros H; unfold TextWrap.em_dash; simpl; now rewrite H. Qed.

Lemma hyphen_break_none (before : str) (c : ascii) (rest : str) :
  TextWrap.is_hyphen c = false ->
  TextWrap.hyphen_break before (c :: rest) = false.
Proof. intros H; simpl; now rewrite H. Qed.

Lemma ws_not_hyphen (c : ascii) :
  TextWrap.is_ws c = true -> TextWrap.is_hyphen c = false.
Proof.
  intros H; destruct (TextWrap.is_hyphen c) eqn:E; [|reflexivity].
  rewrite (hyphen_not_ws c E) in H; discriminate.
Qed.

Lemma word_tail_word (w before post : str) :
  no_ws w = true -> no_hyphen w = true -> starts_ws post ->
  TextWrap.word_tail before (w ++ post) = length w.
Proof.
  intros Hw Hh Hpost; revert before.
  induction w as [|x w IH]; intros before; rewrite word_tail_eq.
  - destruct post as [|p post]; [reflexivity|].
    simpl in Hpost; simpl app.
    now rewrite (hyphen_break_none before p post (ws_not_hyphen p Hpost)), Hpost.
  - simpl in Hw, Hh.
    apply andb_true_iff in Hw as [Hx Hw]; apply negb_true_iff in Hx.
    apply andb_true_iff in Hh as [Hy Hh]; apply negb_true_iff in Hy.
    rewrite <- app_comm_cons, (hyphen_break_none before x _ Hy), Hx,
      (em_dash_none x _ Hy), andb_false_r, (IH Hw Hh).
    reflexivity.
Qed.

Lemma match_len_word (before : str) (c : ascii) (w post : str) :
  no_ws (c :: w) = true -> no_hyphen (c :: w) = true -> starts_ws post ->
  TextWrap.match_len before c (w ++ post) = length (c :: w).
Proof.
  simpl; intros Hw Hh Hpost.
  apply andb_true_iff in Hw as [Hx Hw]; apply negb_true_iff in Hx.
  apply andb_true_iff in Hh as [Hy Hh]; apply negb_true_iff in Hy.
  unfold TextWrap.match_len.
  rewrite Hx, (em_dash_none c _ Hy), (word_tail_word w _ post Hw Hh Hpost).
  now destruct (TextWrap.wp_behind before).
Qed.

Lemma ends_ws_skipn (n : nat) (pre : str) :
  ends_ws pre -> ends_ws (skipn n pre).
Proof.
  intros [-> | (q & z & -> & Hz)]; [left; apply skipn_nil|].
  rewrite skipn_app.
  destruct (Nat.le_gt_cases n (length q)) as [Hle | Hgt].
  - replace (n - length q) with 0 by lia; right.
    now exists (skipn n q), z.
  - left; rewrite skipn_all2 by lia.
    destruct (n - length q) eqn:E; [lia|].
    simpl; apply skipn_nil.
Qed.

(** A match that starts in [pre] ends in [pre], when [pre] ends with
    whitespace and a word follows. *)
Lemma match_len_within (before : str) (p : ascii) (pre w post : str) :
  w <> [] -> no_ws w = true -> ends_ws (p :: pre) ->
  TextWrap.match_len before p (pre ++ w ++ post) <= length (p :: pre).
Proof.
  intros Hne Hw Hpre.
  pose proof (match_len_uniform before p (pre ++ w ++ post)) as Huni.
  cbv zeta in Huni; destruct Huni as [Hn Huni].
  destruct (TextWrap.is_ws p) eqn:Ep.
  - unfold TextWrap.match_len; rewrite Ep; simpl.
    apply le_n_S, count_while_app.
    destruct w as [|x w]; [congruence|].
    simpl in Hw; apply andb_true_iff in Hw as [Hx _].
    now apply negb_true_iff in Hx.
  - destruct Hpre as [E | (q & z & E & Hz)]; [discriminate|].
    destruct (Nat.le_gt_cases (TextWrap.match_len before p (pre ++ w ++ post))
                (length (p :: pre))) as [Hle | Hgt]; [assumption|].
    exfalso.
    unfold no_ws in Huni; rewrite forallb_forall in Huni.
    specialize (Huni z); rewrite Hz in Huni.
    enough (In z (firstn (TextWrap.match_len before p (pre ++ w ++ post))
                    (p :: pre ++ w ++ post))) by (now specialize (Huni H)).
    rewrite app_comm_cons, E, <- app_assoc, firstn_app.
    rewrite E, length_app in Hgt; simpl in Hgt.
    apply in_or_app; right.
    destruct (TextWrap.match_len before p (pre ++ w ++ post) - length q)
      eqn:En; [lia|].
    now left.
Qed.

Lemma split_from_word (fuel : nat) (before pre w post : str) :
  w <> [] -> no_ws w = true -> no_hyphen w = true -> starts_ws post ->
  ends_ws pre -> length (pre ++ w ++ post) <= fuel ->
  In w (TextWrap.split_from fuel before (pre ++ w ++ post)).
Proof.
  intros Hne Hw Hh Hpost; revert before pre.
  induction fuel as [|fuel IH]; intros before pre Hpre Hfuel.
  - destruct w; [congruence|].
    rewrite !length_app in Hfuel; simpl in Hfuel; lia.
  - destruct pre as [|p pre].
    + destruct w as [|c w]; [congruence|].
      simpl app; unfold TextWrap.split_from; fold TextWrap.split_from.
      rewrite (match_len_word before c w post Hw Hh Hpost).
      left; simpl; f_equal.
      rewrite firstn_app, firstn_all, Nat.sub_diag; simpl.
      apply app_nil_r.
    + rewrite <- app_comm_cons.
      unfold TextWrap.split_from; fold TextWrap.split_from.
      pose proof (match_len_pos before p (pre ++ w ++ post)) as Hpos.
      pose proof (match_len_within before p pre w post Hne Hw Hpre) as Hin.
      set (n := TextWrap.match_len before p (pre ++ w ++ post)) in *.
      right.
      rewrite (app_comm_cons pre (w ++ post) p), (skipn_app n (p :: pre)).
      replace (n - length (p :: pre)) with 0 by lia.
      rewrite skipn_0; apply IH; [now apply ends_ws_skipn|].
      rewrite !length_app in Hfuel; rewrite !length_app, length_skipn.
      cbn [length] in *; lia.
Qed.

(** A word of [text] without a hyphen is one of its chunks. *)
Lemma split_word (text pre w post : str) :
  word_at text pre w post -> no_hyphen w = true ->
  In w (TextWrap.split text).
Proof.
  intros (-> & Hne & Hw & Hpre & Hpost) Hh.
  now apply split_from_word.
Qed.

(** ** [textwrap.wrap] *)

Lemma wrap_loop_of (line : str) (width : nat) (r : list str) :
  TextWrap.wrap line width = Some r ->
  0 < width /\
  TextWrap.wrap_loop (S (TextWrap.weight (TextWrap.split_chunks line))) width
    (TextWrap.split_chunks line) [] = Some r.
Proof.
  unfold TextWrap.wrap, TextWrap.wrap_chunks.
  destruct (width <=? 0) eqn:E; [discriminate|].
  apply Nat.leb_gt in E; auto.
Qed.

Lemma wrap_returns (line : str) (width : nat) :
  0 < width -> exists r, TextWrap.wrap line width = Some r.
Proof. intros Hw; now apply wrap_chunks_returns. Qed.

Lemma split_chunks_nonempty (line : str) :
  Forall (fun c => c <> []) (TextWrap.split_chunks line).
Proof.
  unfold TextWrap.split_chunks, TextWrap.split.
  destruct (split_from_uniform (length (TextWrap.munge_whitespace line)) []
              (TextWrap.munge_whitespace line) (le_n _)) as (H & _).
  eapply Forall_impl; [|exact H]; now intros c [Hc _].
Qed.

Lemma split_chunks_chars (line : str) (c : str) (x : ascii) :
  In c (TextWrap.split_chunks line) -> In x c ->
  In x (TextWrap.munge_whitespace line).
Proof.
  intros Hc Hx; unfold TextWrap.split_chunks in Hc.
  rewrite <- (split_concat (TextWrap.munge_whitespace line)).
  apply in_concat; eauto.
Qed.

Lemma wrap_width (line : str) (width : nat) (r : list str) :
  TextWrap.wrap line width = Some r ->
  Forall (fun l => length l <= width) r.
Proof.
  intros H; apply wrap_loop_of in H as [Hw H].
  eapply wrap_loop_width; eauto.
Qed.

Lemma wrap_nonempty (line : str) (width : nat) (r : list str) :
  TextWrap.wrap line width = Some r -> Forall (fun l => l <> []) r.
Proof.
  intros H; apply wrap_loop_of in H as [Hw H].
  eapply wrap_loop_nonempty;
    [exact Hw | apply split_chunks_nonempty | constructor | exact H].
Qed.

(** The characters of the wrapped lines of a text are characters of
    the munged text. *)
Lemma wrap_chars (line : str) (width : nat) (r : list str) :
  TextWrap.wrap line width = Some r ->
  Forall (Forall (fun x => In x (TextWrap.munge_whitespace line))) r.
Proof.
  intros H; apply wrap_loop_of in H as [Hw H].
  eapply wrap_loop_chars; [exact Hw | | constructor | exact H].
  apply Forall_forall; intros c Hc; apply Forall_forall; intros x Hx.
  eapply split_chunks_chars; eauto.
Qed.

Lemma lf_is_ws : TextWrap.is_ws LF = true.
Proof. reflexivity. Qed.

Lemma wrap_no_lf (line : str) (width : nat) (r : list str) :
  TextWrap.wrap line width = Some r -> Forall (fun l => ~ In LF l) r.
Proof.
  intros H; apply wrap_chars in H.
  eapply Forall_impl; [|exact H]; intros l Hl Hin.
  rewrite Forall_forall in Hl.
  pose proof (munge_spaced line LF (Hl LF Hin) lf_is_ws); discriminate.
Qed.

Lemma wrap_some_line (line : str) (width : nat) (r : list str) :
  PyStr.blank line = false ->
  TextWrap.wrap line width = Some r -> r <> [].
Proof.
  intros Hnb H; apply wrap_loop_of in H as [Hw H].
  eapply wrap_loop_some_line; eauto; right.
  destruct (not_blank_has line Hnb) as (x & Hin & Hx).
  assert (Hws : TextWrap.is_ws x = false).
  { destruct (TextWrap.is_ws x) eqn:E; [|reflexivity].
    apply is_ws_isspace in E; congruence. }
  pose proof (munge_keeps line x Hin Hws) as Hm.
  rewrite <- (split_concat (TextWrap.munge_whitespace line)) in Hm.
  apply in_concat in Hm as (c & Hc & Hxc).
  now exists c, x.
Qed.

(** A word of the line that fits the width, has no hyphen and is not
    blank lies whole in one of the wrapped lines. *)
Lemma wrap_places (line pre w post : str) (width : nat) (r : list str) :
  word_at line pre w post -> no_hyphen w = true ->
  PyStr.blank w = false -> length w <= width ->
  TextWrap.wrap line width = Some r ->
  exists l, In l r /\ infix w l.
Proof.
  intros Hword Hh Hnb Hfit H; apply wrap_loop_of in H as [Hw H].
  destruct (word_at_munge line pre w post Hword) as (pre' & post' & Hword').
  eapply wrap_loop_places; eauto; right.
  eapply split_word; eauto.
Qed.

(** ** [wrap_text] *)

Lemma wrap_segment_facts (line : str) (width : nat) (seg : list str) :
  wrap_segment width line = Some seg ->
  segment_of line seg /\
  Forall (fun l => length l <= width) seg /\
  Forall (fun l => ~ In LF l) seg.
Proof.
  unfold wrap_segment, segment_of.
  destruct (PyStr.blank line) eqn:E.
  - intros [= <-]; repeat split; repeat constructor; simpl; [lia | tauto].
  - intros H; repeat split;
      eauto using wrap_some_line, wrap_nonempty, wrap_width, wrap_no_lf.
Qed.

Lemma wrap_lines_segments (width : nat) (ls : list str) :
  0 < width ->
  exists segs,
    Forall2 (fun l seg => wrap_segment width l = Some seg) ls segs /\
    wrap_lines width ls = Some (concat segs).
Proof.
  intros Hw; induction ls as [|l ls (segs & Hsegs & Hls)]; simpl.
  - exists []; split; [constructor | reflexivity].
  - assert (Hseg : exists seg, wrap_segment width l = Some seg).
    { unfold wrap_segment; destruct (PyStr.blank l); [eauto|].
      now apply wrap_returns. }
    destruct Hseg as [seg Hseg]; rewrite Hseg, Hls.
    exists (seg :: segs); split; [now constructor | reflexivity].
Qed.

Lemma segment_not_nil (line : str) (seg : list str) :
  segment_of line seg -> seg <> [].
Proof.
  unfold segment_of; destruct (PyStr.blank line); [now intros -> | tauto].
Qed.

(** With a positive width [wrap_text] returns; the lines of what it
    returns are the segments of the lines of the text, in order. *)
Lemma wrap_text_segments (text : str) (width : nat) :
  0 < width ->
  exists out segs,
    wrap_text text width = Some out /\
    PyStr.split_nl out = concat segs /\
    Forall2 (fun l seg => wrap_segment width l = Some seg)
      (PyStr.split_nl text) segs.
Proof.
  intros Hw; unfold wrap_text.
  destruct (wrap_lines_segments width (PyStr.split_nl text) Hw)
    as (segs & Hsegs & ->).
  exists (PyStr.join_nl (concat segs)), segs.
  split; [reflexivity|]; split; [|assumption].
  apply split_join.
  - pose proof (split_nl_not_nil text) as Hne.
    destruct Hsegs as [|l seg ls segs' Hseg _]; [congruence|].
    apply wrap_segment_facts in Hseg as (Hseg & _).
    apply segment_not_nil in Hseg.
    simpl; destruct seg; [congruence | discriminate].
  - apply Forall_concat.
    clear - Hsegs; induction Hsegs as [|l seg ls segs' Hseg _ IH];
      constructor; [|assumption].
    now apply wrap_segment_facts in Hseg.
Qed.

(** C10.  With a positive width [wrap_text] returns a string none of
    whose lines is longer than the width. *)
Theorem wrap_text_width (text : str) (width : nat) :
  0 < width ->
  exists out,
    wrap_text text width = Some out /\
    Forall (fun line => length line <= width) (PyStr.split_nl out).
Proof.
  intros Hw.
  destruct (wrap_text_segments text width Hw) as (out & segs & Hout & E & H).
  exists out; split; [assumption|].
  rewrite E; apply Forall_concat.
  clear - H; induction H as [|l seg ls segs' Hseg _ IH];
    constructor; [|assumption].
  now apply wrap_segment_facts in Hseg.
Qed.

Lemma filter_concat_segments (lines : list str) (segs : list (list str)) :
  Forall2 segment_of lines segs ->
  length (filter is_empty (concat segs)) =
  length (filter PyStr.blank lines).
Proof.
  induction 1 as [|l seg ls segs' Hseg _ IH]; [reflexivity|].
  simpl; rewrite filter_app, length_app, IH.
  unfold segment_of in Hseg; destruct (PyStr.blank l).
  - subst seg; reflexivity.
  - destruct Hseg as [_ Hne]; simpl; f_equal.
    induction Hne as [|x seg' Hx _ IH']; [reflexivity|].
    simpl; destruct x; [congruence | exact IH'].
Qed.

(** C9, as the code has it.  With a positive width the lines of the
    output are the segments of the input lines, in order: a blank
    input line gives exactly one empty line, any other line gives one
    or more lines none of which is empty.  So the empty lines of the
    output are as many as the blank lines of the input. *)
Theorem wrap_text_blank_lines (text : str) (width : nat) :
  0 < width ->
  exists out segs,
    wrap_text text width = Some out /\
    PyStr.split_nl out = concat segs /\
    Forall2 segment_of (PyStr.split_nl text) segs /\
    length (filter is_empty (PyStr.split_nl out)) =
    length (filter PyStr.blank (PyStr.split_nl text)).
Proof.
  intros Hw.
  destruct (wrap_text_segments text width Hw) as (out & segs & Hout & E & H).
  assert (Hsegs : Forall2 segment_of (PyStr.split_nl text) segs).
  { eapply Forall2_impl; [|exact H].
    intros l seg Hseg; now apply wrap_segment_facts in Hseg. }
  exists out, segs; repeat split; try assumption.
  rewrite E; now apply filter_concat_segments.
Qed.

(** ** Words and lines *)

Lemma split_nl_app_lf (a b : str) :
  PyStr.split_nl (a ++ LF :: b) = PyStr.split_nl a ++ PyStr.split_nl b.
Proof.
  induction a as [|c a IH]; simpl; [reflexivity|].
  rewrite IH; destruct (Ascii.eqb c LF); [reflexivity|].
  destruct (PyStr.split_nl a) as [|l ls] eqn:E; [|reflexivity].
  now destruct (split_nl_not_nil a).
Qed.

Lemma last_lf (s : str) :
  ~ In LF s \/ exists a b, s = a ++ LF :: b /\ ~ In LF b.
Proof.
  induction s as [|c s [IH | (a & b & -> & Hb)]].
  - left; simpl; tauto.
  - destruct (Ascii.eqb c LF) eqn:E.
    + apply Ascii.eqb_eq in E; subst; right; now exists [], s.
    + left; simpl; intros [H | H]; [|tauto].
      subst; now rewrite Ascii.eqb_refl in E.
  - right; now exists (c :: a), b.
Qed.

Lemma first_lf (s : str) :
  ~ In LF s \/ exists a b, s = a ++ LF :: b /\ ~ In LF a.
Proof.
  induction s as [|c s IH]; [left; simpl; tauto|].
  destruct (Ascii.eqb c LF) eqn:E.
  - apply Ascii.eqb_eq in E; subst; right; exists [], s; simpl; tauto.
  - assert (Hc : c <> LF) by (intros ->; now rewrite Ascii.eqb_refl in E).
    destruct IH as [IH | (a & b & -> & Ha)].
    + left; simpl; intros [H | H]; [congruence | tauto].
    + right; exists (c :: a), b; split; [reflexivity|].
      simpl; intros [H | H]; [congruence | tauto].
Qed.

Lemma no_ws_no_lf (w : str) : no_ws w = true -> ~ In LF w.
Proof.
  unfold no_ws; rewrite forallb_forall; intros H Hin.
  specialize (H LF Hin); discriminate.
Qed.

(** The line of [m], when a line break or nothing is on either side. *)
Lemma split_nl_middle (a m b : str) :
  ~ In LF m ->
  a = [] \/ (exists a', a = a' ++ [LF]) ->
  b = [] \/ (exists b', b = LF :: b') ->
  In m (PyStr.split_nl (a ++ m ++ b)).
Proof.
  intros Hm Ha Hb.
  assert (Hmb : In m (PyStr.split_nl (m ++ b))).
  { destruct Hb as [-> | (b' & ->)].
    - rewrite app_nil_r, split_nl_one by assumption; now left.
    - rewrite split_nl_app by assumption; now left. }
  destruct Ha as [-> | (a' & ->)]; [exact Hmb|].
  rewrite <- app_assoc; simpl.
  rewrite split_nl_app_lf; apply in_or_app; now right.
Qed.

(** A word of a text is a word of one of its lines. *)
Lemma word_at_line (text pre w post : str) :
  word_at text pre w post ->
  exists line pre' post',
    In line (PyStr.split_nl text) /\ word_at line pre' w post'.
Proof.
  intros (-> & Hne & Hw & Hpre & Hpost).
  assert (Hp : exists p1 p2, pre = p1 ++ p2 /\ ~ In LF p2 /\ ends_ws p2 /\
                              (p1 = [] \/ exists a', p1 = a' ++ [LF])).
  { destruct (last_lf pre) as [H | (a & b & E & Hb)].
    - exists [], pre; auto.
    - exists (a ++ [LF]), b; repeat split; eauto.
      + now rewrite <- app_assoc.
      + replace b with (skipn (length (a ++ [LF])) pre);
          [now apply ends_ws_skipn|].
        rewrite E, (app_assoc a [LF] b : a ++ LF :: b = (a ++ [LF]) ++ b).
        rewrite skipn_app, skipn_all, Nat.sub_diag; reflexivity. }
  assert (Hq : exists q1 q2, post = q1 ++ q2 /\ ~ In LF q1 /\ starts_ws q1 /\
                              (q2 = [] \/ exists b', q2 = LF :: b')).
  { destruct (first_lf post) as [H | (a & b & E & Ha)].
    - exists post, []; rewrite app_nil_r; auto.
    - exists a, (LF :: b); repeat split; eauto.
      destruct a; [exact I|]; now subst post. }
  destruct Hp as (p1 & p2 & -> & Hp2 & Hends & Hp1).
  destruct Hq as (q1 & q2 & -> & Hq1 & Hstarts & Hq2).
  exists (p2 ++ w ++ q1), p2, q1; split.
  - replace ((p1 ++ p2) ++ w ++ q1 ++ q2)
      with (p1 ++ (p2 ++ w ++ q1) ++ q2)
      by (now rewrite <- !app_assoc).
    apply split_nl_middle; [|assumption..].
    rewrite !in_app_iff; pose proof (no_ws_no_lf w Hw); tauto.
  - repeat split; assumption.
Qed.

Lemma Forall2_in_l {A B : Type} (R : A -> B -> Prop) (l : list A)
    (l' : list B) (a : A) :
  Forall2 R l l' -> In a l -> exists b, In b l' /\ R a b.
Proof.
  induction 1 as [|x y l l' Hxy _ IH]; [intros []|].
  intros [<- | H]; [exists y; simpl; auto|].
  destruct (IH H) as (b & Hb & Hab); exists b; simpl; auto.
Qed.

Lemma blank_infix (w line : str) :
  infix w line -> PyStr.blank w = false -> PyStr.blank line = false.
Proof.
  intros (a & b & ->) Hw.
  destruct (not_blank_has w Hw) as (x & Hin & Hx).
  apply (not_blank_in _ x); [|assumption].
  rewrite !in_app_iff; tauto.
Qed.

(** C2, as the code has it.  With a positive width, a word of the
    text (a maximal run of characters that are not whitespace) lies
    whole in one line of the output when it is no longer than the
    width, holds no hyphen and is not blank. *)
Theorem wrap_text_keeps_word (text pre w post : str) (width : nat) :
  0 < width ->
  word_at text pre w post ->
  length w <= width -> no_hyphen w = true -> PyStr.blank w = false ->
  exists out line,
    wrap_text text width = Some out /\
    In line (PyStr.split_nl out) /\ infix w line.
Proof.
  intros Hwidth Hword Hfit Hh Hnb.
  destruct (wrap_text_segments text width Hwidth)
    as (out & segs & Hout & E & Hsegs).
  destruct (word_at_line text pre w post Hword)
    as (line & pre' & post' & Hline & Hword').
  destruct (Forall2_in_l _ _ _ line Hsegs Hline) as (seg & Hseg & Hwrap).
  assert (Hline_nb : PyStr.blank line = false).
  { apply (blank_infix w); [|assumption].
    destruct Hword' as (-> & _); now exists pre', post'. }
  unfold wrap_segment in Hwrap; rewrite Hline_nb in Hwrap.
  destruct (wrap_places line pre' w post' width seg Hword' Hh Hnb Hfit Hwrap)
    as (l & Hl & Hinf).
  exists out, l; repeat split; [assumption | | assumption].
  rewrite E; apply in_concat; now exists seg.
Qed.

(** ** Stretches without whitespace survive the munging *)

Lemma repeat_sp_infix (k : nat) (t a w b : str) :
  repeat SP k ++ t = a ++ w ++ b -> w <> [] -> no_ws w = true ->
  exists a', t = a' ++ w ++ b.
Proof.
  intros E Hne Hw; revert a E; induction k as [|k IH]; intros a E.
  - now exists a.
  - destruct a as [|y a]; simpl in E.
    + destruct w as [|x w]; [congruence|].
      injection E as <- _; discriminate Hw.
    + injection E as _ E; eauto.
Qed.

Lemma expandtabs_from_prefix (w s b : str) (col : nat) :
  PyStr.expandtabs_from TextWrap.tabsize col s = w ++ b ->
  no_ws w = true -> exists b', s = w ++ b'.
Proof.
  revert s col; induction w as [|x w IH]; intros s col E Hw; [now exists s|].
  simpl in Hw; apply andb_true_iff in Hw as [Hx Hw].
  apply negb_true_iff in Hx.
  destruct s as [|c s]; [discriminate E|].
  rewrite expandtabs_from_cons in E.
  destruct (Ascii.eqb c TAB).
  - destruct (tab_stop_spaces col) as (k & Ek & _); rewrite Ek in E.
    injection E as <- _; discriminate Hx.
  - injection E as -> E.
    destruct (IH _ _ E Hw) as [b' ->]; now exists b'.
Qed.

Lemma infix_cons (w s : str) (c : ascii) : infix w s -> infix w (c :: s).
Proof. intros (a & b & ->); now exists (c :: a), b. Qed.

Lemma expandtabs_from_infix (s a w b : str) (col : nat) :
  PyStr.expandtabs_from TextWrap.tabsize col s = a ++ w ++ b ->
  w <> [] -> no_ws w = true -> infix w s.
Proof.
  intros E Hne Hw; revert col a E; induction s as [|c s IH]; intros col a E.
  - destruct a, w; try discriminate E; congruence.
  - rewrite expandtabs_from_cons in E.
    destruct (Ascii.eqb c TAB).
    + apply repeat_sp_infix in E as [a' E]; try assumption.
      apply infix_cons; eauto.
    + destruct a as [|y a]; simpl in E.
      * destruct w as [|x w]; [congruence|].
        injection E as -> E.
        simpl in Hw; apply andb_true_iff in Hw as [_ Hw].
        destruct (expandtabs_from_prefix w s b _ E Hw) as [b' ->].
        now exists [], b'.
      * injection E as _ E; apply infix_cons; eauto.
Qed.

Lemma translate_ws_inv (l w : str) :
  TextWrap.translate_ws l = w -> no_ws w = true -> l = w.
Proof.
  revert w; induction l as [|c l IH]; intros w E Hw; [exact E|].
  destruct w as [|x w]; [discriminate E|].
  simpl in E, Hw; injection E as Ex E.
  apply andb_true_iff in Hw as [Hx Hw]; apply negb_true_iff in Hx.
  destruct (TextWrap.is_ws c) eqn:Ec;
    [subst x; discriminate Hx|].
  subst x; f_equal; auto.
Qed.

Lemma munge_infix (line a w b : str) :
  TextWrap.munge_whitespace line = a ++ w ++ b ->
  w <> [] -> no_ws w = true -> infix w line.
Proof.
  unfold TextWrap.munge_whitespace, TextWrap.translate_ws, PyStr.expandtabs.
  intros E Hne Hw.
  apply map_eq_app in E as (la & l2 & E & Ha & E2).
  apply map_eq_app in E2 as (lw & lb & -> & Ew & Eb).
  apply translate_ws_inv in Ew; [subst lw | assumption].
  eapply expandtabs_from_infix; eauto.
Qed.

Lemma words_fit_infix (width : nat) (text line : str) :
  infix line text -> words_fit width text -> words_fit width line.
Proof.
  intros (a & b & ->) H a' w b' -> Hw.
  apply (H (a ++ a') w (b' ++ b)); [|assumption].
  now rewrite <- !app_assoc.
Qed.

Lemma plain_space_infix (text line : str) :
  infix line text -> plain_space text -> plain_space line.
Proof.
  intros (a & b & ->) H c Hc; apply H.
  rewrite !in_app_iff; tauto.
Qed.

(** ** Chunks of a plain text whose words fit *)

Lemma not_ws_of_not_space (x : ascii) :
  PyStr.isspace x = false -> TextWrap.is_ws x = false.
Proof.
  intros H; destruct (TextWrap.is_ws x) eqn:E; [|reflexivity].
  apply is_ws_isspace in E; congruence.
Qed.

Lemma all_ws_blank (c : str) : all_ws c = true -> PyStr.blank c = true.
Proof.
  unfold all_ws; rewrite blank_spec, !forallb_forall.
  intros H x Hx; apply is_ws_isspace; auto.
Qed.

Lemma word_chunk_not_blank (width : nat) (c : str) :
  word_chunk width c -> PyStr.blank c = false.
Proof.
  intros (Hne & Hc & _); destruct c as [|x c]; [congruence|].
  inversion Hc; subst; apply (not_blank_in _ x); simpl; auto.
Qed.

Lemma word_chunk_not_ws (width : nat) (c : str) :
  word_chunk width c -> all_ws c = true -> False.
Proof.
  intros Hw Hc; apply all_ws_blank in Hc.
  rewrite (word_chunk_not_blank width c Hw) in Hc; discriminate.
Qed.

Lemma chunk_ok_blank (width : nat) (c : str) :
  chunk_ok width c -> PyStr.blank c = true -> all_ws c = true.
Proof.
  intros [_ [[_ H] | H]] Hb; [assumption|].
  rewrite (word_chunk_not_blank width c H) in Hb; discriminate.
Qed.

Lemma chunk_ok_word (width : nat) (c : str) :
  chunk_ok width c -> (all_ws c = true -> False) -> word_chunk width c.
Proof. intros [_ [[_ H] | H]] Hn; [contradiction | assumption]. Qed.

Lemma chunk_ok_long (width : nat) (c : str) :
  chunk_ok width c -> width < length c -> all_ws c = true.
Proof. intros [_ [[_ H] | (_ & _ & H)]] Hl; [assumption | lia]. Qed.

Lemma split_chunks_ok (width : nat) (line : str) :
  plain_space line -> words_fit width line ->
  Forall (chunk_ok width) (TextWrap.split_chunks line) /\
  separated (TextWrap.split_chunks line).
Proof.
  intros Hplain Hfit.
  unfold TextWrap.split_chunks.
  destruct (split_from_uniform (length (TextWrap.munge_whitespace line)) []
              (TextWrap.munge_whitespace line) (le_n _)) as (Huni & Hsep & _).
  fold (TextWrap.split (TextWrap.munge_whitespace line)) in Huni, Hsep.
  split; [|exact Hsep].
  apply Forall_forall; intros c Hc.
  rewrite Forall_forall in Huni; destruct (Huni c Hc) as [Hne Hclass].
  assert (Htidy : forall x, In x c -> tidy x).
  { intros x Hx.
    assert (Hm : In x (TextWrap.munge_whitespace line))
      by (eapply split_chunks_chars; eauto).
    apply munge_chars in Hm as [-> | [Hin Hws]]; [now left|].
    right; destruct (PyStr.isspace x) eqn:E; [|reflexivity].
    rewrite (Hplain x Hin E) in Hws; discriminate. }
  split; [now apply Forall_forall|].
  destruct Hclass as [Hws | Hnws]; [left; auto | right].
  split; [assumption|]; split.
  - apply Forall_forall; intros x Hx.
    unfold no_ws in Hnws; rewrite forallb_forall in Hnws.
    specialize (Hnws x Hx); apply negb_true_iff in Hnws.
    destruct (Htidy x Hx) as [-> | H]; [discriminate Hnws | exact H].
  - pose proof (split_concat (TextWrap.munge_whitespace line)) as Hcat.
    apply in_split in Hc as (l1 & l2 & Hc); rewrite Hc in Hcat.
    rewrite concat_app in Hcat; simpl in Hcat; symmetry in Hcat.
    destruct (munge_infix line _ c _ Hcat Hne Hnws) as (a & b & E).
    exact (Hfit a c b E Hnws).
Qed.

Lemma separated_app_r (a b : list str) : separated (a ++ b) -> separated b.
Proof.
  induction a as [|x a IH]; [auto|]; simpl; intros [_ H]; auto.
Qed.

Lemma separated_mid (xs ys : list str) (a b : str) :
  separated (xs ++ a :: b :: ys) ->
  all_ws a = true -> all_ws b = true -> False.
Proof. intros H; apply separated_app_r in H as [H _]; exact H. Qed.

Lemma all_ws_firstn (e : nat) (c : str) :
  all_ws c = true -> all_ws (firstn e c) = true.
Proof.
  unfold all_ws; rewrite !forallb_forall; intros H x Hx.
  apply H; eapply in_firstn; eauto.
Qed.

Lemma all_ws_skipn (e : nat) (c : str) :
  all_ws c = true -> all_ws (skipn e c) = true.
Proof.
  unfold all_ws; rewrite !forallb_forall; intros H x Hx.
  apply H; eapply in_skipn; eauto.
Qed.

Section Settled.

Variable width : nat.
Hypothesis width_pos : 0 < width.

(** Chunks that end with a word make a settled line. *)
Lemma settled_concat (init : list str) (b : str) :
  Forall (chunk_ok width) (init ++ [b]) -> word_chunk width b ->
  length (concat (init ++ [b])) <= width ->
  settled width (concat (init ++ [b])).
Proof.
  intros Hok (Hne & Hb & _) Hlen.
  destruct (@exists_last _ b Hne) as (s & x & ->).
  assert (Hx : PyStr.isspace x = false)
    by (rewrite Forall_forall in Hb; apply Hb, in_or_app; simpl; auto).
  assert (E : concat (init ++ [s ++ [x]]) = (concat init ++ s) ++ [x])
    by (rewrite concat_app; simpl; now rewrite app_nil_r, app_assoc).
  unfold settled; split; [|split; [exact Hlen | split]].
  - intros H; pose proof (eq_trans (eq_sym E) H) as H'.
    now apply app_eq_nil in H' as [_ H'].
  - apply Forall_concat; eapply Forall_impl; [|exact Hok].
    now intros c [Hc _].
  - exists (concat init ++ s), x; split; [exact E | exact Hx].
Qed.

Lemma last_is_word (xs ys : list str) (b y : str) :
  Forall (chunk_ok width) (xs ++ b :: y :: ys) ->
  separated (xs ++ b :: y :: ys) -> all_ws y = true -> word_chunk width b.
Proof.
  intros Hok Hsep Hy.
  apply (chunk_ok_word width b); [exact (Forall_elt _ _ _ Hok)|].
  intros Hb; exact (separated_mid xs ys b y Hsep Hb Hy).
Qed.

Lemma emit_settled (lines pieces : list str) :
  Forall (settled width) lines ->
  pieces = [] \/ settled width (concat pieces) ->
  Forall (settled width)
    (match pieces with [] => lines | _ :: _ => lines ++ [concat pieces] end).
Proof.
  intros Hl [-> | H]; [assumption|].
  destruct pieces; [assumption|].
  apply Forall_app; split; [assumption | now constructor].
Qed.

(** What is left of a line once its last chunk, whitespace followed
    by [next], is gone. *)
Lemma settled_before_ws (init next : list str) (y : str) :
  Forall (chunk_ok width) (init ++ y :: next) ->
  separated (init ++ y :: next) -> all_ws y = true ->
  length (concat init) <= width ->
  init = [] \/ settled width (concat init).
Proof.
  intros Hok Hsep Hy Hlen.
  destruct init as [|c init]; [now left | right].
  destruct (@exists_last _ (c :: init)) as (init' & b & E); [discriminate|].
  rewrite E in *; rewrite <- app_assoc in Hok, Hsep; simpl in Hok, Hsep.
  apply settled_concat; [| |assumption].
  - apply Forall_app in Hok as [H1 H2].
    apply Forall_app; split; [assumption|].
    inversion H2; subst; constructor; [assumption | constructor].
  - eapply last_is_word; eauto.
Qed.

(** One pass keeps the chunks in order and emits a settled line. *)
Lemma wrap_line_settled (top : str) (below lines : list str) :
  Forall (chunk_ok width) (top :: below) -> separated (top :: below) ->
  Forall (settled width) lines ->
  Forall (chunk_ok width) (fst (TextWrap.wrap_line width top below lines)) /\
  separated (fst (TextWrap.wrap_line width top below lines)) /\
  Forall (settled width) (snd (TextWrap.wrap_line width top below lines)).
Proof.
  intros Hok Hsep Hlines.
  destruct (wrap_line_cases width top below lines width_pos)
    as (chunks1 & taken & rest & cl & chunks3 & H1 & Hc & Hle & Hcase & ->).
  simpl fst; simpl snd.
  assert (Hok1 : Forall (chunk_ok width) chunks1)
    by (destruct H1 as [-> | (-> & _)]; [assumption | now inversion Hok]).
  assert (Hsep1 : separated chunks1)
    by (destruct H1 as [-> | (-> & _)]; [assumption | now destruct Hsep]).
  clear H1 Hok Hsep; subst chunks1.
  destruct Hcase as [(-> & -> & _)
                    | (top2 & below2 & e & -> & Hlong & He & _ & -> & ->)].
  - (* nothing is split *)
    split; [now apply Forall_app in Hok1|].
    split; [now apply separated_app_r in Hsep1|].
    apply emit_settled; [assumption|].
    destruct (drop_trailing_cases taken)
      as [[-> [-> | (init & last & -> & Hnb)]]
         | (init & last & -> & Hb & ->)].
    + now left.
    + right; apply Forall_app in Hok1 as [Hok1 _].
      apply settled_concat; [assumption | | assumption].
      apply (chunk_ok_word width last); [exact (Forall_elt _ _ _ Hok1)|].
      intros H; apply all_ws_blank in H; congruence.
    + rewrite <- app_assoc in Hok1, Hsep1; simpl in Hok1, Hsep1.
      apply (settled_before_ws init rest last); try assumption.
      * apply (chunk_ok_blank width); [exact (Forall_elt _ _ _ Hok1) | exact Hb].
      * rewrite concat_app, length_app in Hle; lia.
  - (* the chunk [top2] is longer than a line: it is whitespace *)
    assert (Htop2 : chunk_ok width top2) by exact (Forall_elt _ _ _ Hok1).
    assert (Hws : all_ws top2 = true) by (eapply chunk_ok_long; eauto).
    pose proof (proj2 (proj1 (Forall_app _ _ _) Hok1)) as Hok2.
    pose proof (separated_app_r _ _ Hsep1) as Hsep2.
    split; [|split].
    + constructor; [|now inversion Hok2].
      split.
      * destruct Htop2 as [Ht _]; rewrite Forall_forall in *.
        intros x Hx; apply Ht; eapply in_skipn; eauto.
      * left; split; [|now apply all_ws_skipn].
        intros E; apply (f_equal (@length ascii)) in E.
        rewrite length_skipn in E; simpl in E; lia.
    + destruct Hsep2 as [Hhead Htail]; split; [|exact Htail].
      destruct below2; [exact I|]; intros _; now apply Hhead.
    + apply emit_settled; [assumption|].
      destruct (drop_trailing_cases (taken ++ [firstn e top2]))
        as [[_ [E | (init & last & E & Hnb)]]
           | (init & last & E & _ & ->)].
      * now apply app_eq_nil in E as [_ E].
      * apply app_inj_tail in E as [_ <-].
        rewrite (all_ws_blank _ (all_ws_firstn e top2 Hws)) in Hnb.
        discriminate.
      * apply app_inj_tail in E as [<- _].
        now apply (settled_before_ws taken below2 top2).
Qed.

Lemma wrap_loop_settled (fuel : nat) (chunks lines r : list str) :
  Forall (chunk_ok width) chunks -> separated chunks ->
  Forall (settled width) lines ->
  TextWrap.wrap_loop fuel width chunks lines = Some r ->
  Forall (settled width) r.
Proof.
  intros Hok Hsep Hl H.
  refine (proj2 (proj2 (wrap_loop_invariant width
           (fun cs ls => Forall (chunk_ok width) cs /\ separated cs /\
                         Forall (settled width) ls)
           _ fuel chunks lines r (conj Hok (conj Hsep Hl)) H))).
  clear - width_pos; intros top below ls (H1 & H2 & H3).
  now apply wrap_line_settled.
Qed.

End Settled.

(** ** Wrapping a settled line *)

Lemma fill_line_all (width : nat) (chunks cur_line : list str)
    (cur_len : nat) :
  cur_len + length (concat chunks) <= width ->
  TextWrap.fill_line width cur_line cur_len chunks =
  (cur_line ++ chunks, cur_len + length (concat chunks), []).
Proof.
  revert cur_line cur_len; induction chunks as [|top below IH];
    intros cur_line cur_len H; simpl in *.
  - now rewrite app_nil_r, Nat.add_0_r.
  - rewrite length_app in *.
    assert (E : (cur_len + length top <=? width) = true)
      by (apply Nat.leb_le; lia).
    rewrite E, IH by lia.
    now rewrite <- app_assoc, Nat.add_assoc.
Qed.

Lemma drop_trailing_id (init : list str) (last : str) :
  PyStr.blank last = false ->
  TextWrap.drop_trailing (init ++ [last]) = init ++ [last].
Proof.
  intros H; unfold TextWrap.drop_trailing.
  rewrite rev_app_distr; simpl; now rewrite H.
Qed.

Lemma settled_not_blank (width : nat) (l : str) :
  settled width l -> PyStr.blank l = false.
Proof.
  intros (_ & _ & _ & s & x & -> & Hx).
  apply (not_blank_in _ x); [apply in_or_app; simpl; auto | exact Hx].
Qed.

Lemma settled_munge (width : nat) (l : str) :
  settled width l -> TextWrap.munge_whitespace l = l.
Proof.
  intros (_ & _ & Ht & _); apply munge_fixed.
  rewrite Forall_forall in Ht; intros c Hc Hws.
  destruct (Ht c Hc) as [-> | H]; [reflexivity|].
  apply not_ws_of_not_space in H; congruence.
Qed.

(** The chunks of a settled line fill one line, and nothing is
    dropped from it. *)
Lemma wrap_line_of_settled (width : nat) (l top : str) (below : list str) :
  settled width l -> concat (top :: below) = l ->
  Forall (fun c => c <> []) (top :: below) ->
  TextWrap.wrap_line width top below [] = ([], [l]).
Proof.
  intros (_ & Hlen & _ & s & x & El & Hx) Hcat Hne.
  unfold TextWrap.wrap_line.
  replace (PyStr.blank top && negb (length (@nil str) =? 0)) with false
    by (simpl; now rewrite andb_false_r).
  rewrite fill_line_all by (rewrite Hcat; simpl; lia).
  cbv beta iota; simpl app.
  destruct (@exists_last _ (top :: below)) as (init & last & E);
    [discriminate|].
  assert (Hlast : PyStr.blank last = false).
  { rewrite E in Hne, Hcat.
    apply Forall_elt in Hne.
    destruct (@exists_last _ last Hne) as (l' & y & ->).
    rewrite concat_app in Hcat; simpl in Hcat.
    rewrite app_nil_r, app_assoc, El in Hcat.
    apply app_inj_tail in Hcat as [_ ->].
    apply (not_blank_in _ x); [apply in_or_app; simpl; auto | exact Hx]. }
  rewrite E, (drop_trailing_id init last Hlast), <- E, Hcat.
  reflexivity.
Qed.

(** Wrapping a settled line gives the line back. *)
Lemma wrap_of_settled (width : nat) (l : str) :
  settled width l -> TextWrap.wrap l width = Some [l].
Proof.
  intros Hs; pose proof Hs as (Hne & Hlen & _).
  unfold TextWrap.wrap, TextWrap.split_chunks.
  rewrite (settled_munge width l Hs).
  pose proof (split_concat l) as Hcat.
  destruct (split_from_uniform (length l) [] l (le_n _)) as (Huni & _).
  fold (TextWrap.split l) in Huni.
  assert (Hnes : Forall (fun c => c <> []) (TextWrap.split l))
    by (eapply Forall_impl; [|exact Huni]; now intros c [Hc _]).
  unfold TextWrap.wrap_chunks.
  assert (Hw : (width <=? 0) = false).
  { apply Nat.leb_gt; destruct l; [congruence | simpl in Hlen; lia]. }
  rewrite Hw.
  destruct (TextWrap.split l) as [|top below]; [simpl in Hcat; congruence|].
  cbn [TextWrap.wrap_loop].
  rewrite (wrap_line_of_settled width l top below Hs Hcat Hnes).
  cbv beta iota; destruct (TextWrap.weight (top :: below)); reflexivity.
Qed.

Lemma wrap_lines_fixed (width : nat) (ls : list str) :
  Forall (fun l => l = [] \/ settled width l) ls ->
  wrap_lines width ls = Some ls.
Proof.
  induction 1 as [|l ls Hl _ IH]; [reflexivity|].
  simpl; rewrite IH.
  destruct Hl as [-> | Hl]; [reflexivity|].
  unfold wrap_segment.
  now rewrite (settled_not_blank width l Hl), (wrap_of_settled width l Hl).
Qed.

(** The lines wrapped from a plain line whose words fit are settled. *)
Lemma wrap_segment_settled (width : nat) (line : str) (seg : list str) :
  plain_space line -> words_fit width line ->
  wrap_segment width line = Some seg ->
  Forall (fun l => l = [] \/ settled width l) seg.
Proof.
  intros Hplain Hfit; unfold wrap_segment.
  destruct (PyStr.blank line); [intros [= <-]; repeat constructor|].
  intros H; apply wrap_loop_of in H as [Hw H].
  destruct (split_chunks_ok width line Hplain Hfit) as [Hok Hsep].
  eapply Forall_impl; [intros l Hl; right; exact Hl|].
  eapply wrap_loop_settled; eauto.
Qed.

(** C8, as the code has it.  With a positive width, on a text whose
    whitespace is the wrapper's own and none of whose words is longer
    than the width, wrapping the wrapped text changes nothing. *)
Theorem wrap_text_idempotent (text : str) (width : nat) :
  0 < width -> plain_space text -> words_fit width text ->
  exists out,
    wrap_text text width = Some out /\ wrap_text out width = Some out.
Proof.
  intros Hw Hplain Hfit.
  destruct (wrap_text_segments text width Hw) as (out & segs & Hout & E & Hsegs).
  exists out; split; [assumption|].
  assert (Hall : Forall (fun l => l = [] \/ settled width l) (concat segs)).
  { apply Forall_concat.
    assert (Hlines : forall line, In line (PyStr.split_nl text) ->
                                  plain_space line /\ words_fit width line).
    { intros line Hin; apply split_nl_infix in Hin.
      split; [eapply plain_space_infix | eapply words_fit_infix]; eauto. }
    clear - Hsegs Hlines.
    induction Hsegs as [|line seg ls segs' Hseg _ IH]; constructor.
    - destruct (Hlines line (or_introl eq_refl)).
      eapply wrap_segment_settled; eauto.
    - apply IH; intros l Hl; apply Hlines; now right. }
  unfold wrap_text; rewrite E, (wrap_lines_fixed width _ Hall), <- E.
  now rewrite join_split.
Qed.

(** ** Checking the hypotheses on a given text *)

Lemma runs_fit_run (width : nat) (w b : str) (run : nat) :
  runs_fit width run (w ++ b) = true -> no_ws w = true -> w <> [] ->
  run + length w <= width.
Proof.
  revert run; induction w as [|x w IH]; intros run H Hw Hne; [congruence|].
  cbn [runs_fit app] in H; simpl in Hw.
  apply andb_true_iff in Hw as [Hx Hw].
  apply negb_true_iff in Hx; rewrite Hx in H.
  apply andb_true_iff in H as [Hrun H]; apply Nat.leb_le in Hrun.
  destruct w as [|y w]; [simpl; lia|].
  specialize (IH (S run) H Hw ltac:(discriminate)); simpl in *; lia.
Qed.

Lemma runs_fit_sound (width : nat) (text : str) :
  runs_fit width 0 text = true -> words_fit width text.
Proof.
  intros H a w b -> Hw.
  destruct w as [|x w]; [simpl; lia|].
  revert H; generalize 0; induction a as [|c a IH]; intros run H.
  - pose proof (runs_fit_run width (x :: w) b run H Hw ltac:(discriminate)).
    lia.
  - cbn [runs_fit app] in H; destruct (TextWrap.is_ws c); [eauto|].
    apply andb_true_iff in H as [_ H]; eauto.
Qed.

Lemma plain_spaceb_sound (text : str) :
  plain_spaceb text = true -> plain_space text.
Proof.
  unfold plain_spaceb; rewrite forallb_forall; intros H c Hc Hs.
  specialize (H c Hc); now rewrite Hs in H.
Qed.

Lemma infix_length (w s : str) : infix w s -> length w <= length s.
Proof. intros (a & b & ->); rewrite !length_app; lia. Qed.

(** The reply of a turn: the width 100 is positive, so [wrap_text]
    returns and the wrapped text is printed. *)
Lemma turn_success (Session World : Type)
    (send_message : Session -> str -> World -> (str + str) * World)
    (st : loop_state Session World) (c : Session) (user_input text : str)
    (w' : World) :
  chat st = Some c ->
  send_message c user_input (world st) = (inr text, w') ->
  exists wrapped,
    wrap_text text 100 = Some wrapped /\
    turn send_message st user_input =
    ([SendMessage c user_input; reply wrapped],
     {| chat := Some c; world := w' |}).
Proof.
  intros Hchat Hsend.
  destruct (wrap_text_segments text 100 ltac:(lia)) as (out & _ & Hout & _).
  exists out; split; [assumption|].
  unfold turn; now rewrite Hchat, Hsend, Hout.
Qed.

(** ** The properties on given inputs *)

Lemma create_chat_failure_witness :
  exists printed : list (event nat),
    create_chat Demo.start_chat_unknown Demo.flash 0 =
    (None, StartChat Demo.flash :: printed, 1) /\
    (PyStr.contains (py "404")
       (py "404 models/" ++ Demo.flash ++ py " is not found") = true ->
     PyStr.contains (py "not found")
       (py "404 models/" ++ Demo.flash ++ py " is not found") = true ->
     printed =
     [Print (py "Error: Model '" ++ Demo.flash ++
             py "' is not supported for chat/content generation.");
      Print (py "Try using one of these reliable models instead:");
      Print (py "  - models/gemini-1.5-flash (recommended)");
      Print (py "  - models/gemini-1.5-pro");
      Print (py "  - models/gemini-1.0-pro")]) /\
    (PyStr.contains (py "404")
       (py "404 models/" ++ Demo.flash ++ py " is not found") = false \/
     PyStr.contains (py "not found")
       (py "404 models/" ++ Demo.flash ++ py " is not found") = false ->
     printed =
     [Print (py "Error creating chat session: " ++
             py "404 models/" ++ Demo.flash ++ py " is not found")]).
Proof.
  apply (create_chat_failure nat nat Demo.start_chat_unknown Demo.flash
           (py "404 models/" ++ Demo.flash ++ py " is not found") 0 1).
  reflexivity.
Defined.

Lemma turn_failure_classified_witness :
  exists printed : list (event nat),
    step Demo.start_chat_down Demo.send_over_quota Demo.flash
      {| chat := Some 7; world := 0 |} (Line (py " hello ")) =
    (Prompt prompt :: SendMessage 7 (PyStr.strip (py " hello ")) :: printed,
     Awaiting {| chat := Some 7; world := 1 |}) /\
    (PyStr.contains (py "429")
       (py "429 Quota exceeded for requests per minute") = true ->
     PyStr.contains (py "quota")
       (PyStr.lower (py "429 Quota exceeded for requests per minute")) = true ->
     printed =
     [Print (LF :: ESC :: py "[1;31mRate Limit Error:" ++ ESC ::
             py "[0m You've reached the API rate limits for the free tier.");
      Print (py "Tips to resolve this issue:");
      Print (py "  1. Wait a minute before trying again");
      Print (py "  2. Try using a different model with '--model models/gemini-1.5-flash-8b'");
      Print (py "  3. Check your quota at https://ai.google.dev/gemini-api/docs/rate-limits" ++ [LF])]) /\
    (PyStr.contains (py "429")
       (py "429 Quota exceeded for requests per minute") = false ->
     PyStr.contains (py "quota")
       (PyStr.lower (py "429 Quota exceeded for requests per minute")) = false ->
     printed =
     [Print (LF :: ESC :: py "[1;31mError: " ++
             py "429 Quota exceeded for requests per minute" ++
             ESC :: py "[0m" ++ [LF])]).
Proof.
  apply (turn_failure_classified nat nat Demo.start_chat_down
           Demo.send_over_quota Demo.flash {| chat := Some 7; world := 0 |} 7
           (py " hello ") (py "429 Quota exceeded for requests per minute") 1).
  - unfold is_message; repeat split; try reflexivity.
    vm_compute; discriminate.
  - reflexivity.
  - reflexivity.
Defined.

Lemma exit_terminates_witness :
  step Demo.start_chat_down Demo.send_echo Demo.flash
    {| chat := Some 7; world := 0 |} (Line (py "EXIT")) =
  ([Prompt prompt; Print (py "Exiting chat.")], Terminated Exited) /\
  run Demo.start_chat_down Demo.send_echo Demo.flash
    {| chat := Some 7; world := 0 |} [Line (py "EXIT"); Line (py "hi")] =
  ([Prompt prompt; Print (py "Exiting chat.")], Exited,
   {| chat := Some 7; world := 0 |}) /\
  filter (@is_call nat)
    (fst (fst (run Demo.start_chat_down Demo.send_echo Demo.flash
                 {| chat := Some 7; world := 0 |}
                 [Line (py "EXIT"); Line (py "hi")]))) = [].
Proof.
  apply (exit_terminates nat nat Demo.start_chat_down Demo.send_echo
           Demo.flash {| chat := Some 7; world := 0 |} (py "EXIT")
           [Line (py "hi")]).
  left; reflexivity.
Defined.

Lemma clear_failure_leaves_no_session_witness :
  exists printed : list (event nat),
    step Demo.start_chat_down Demo.send_echo Demo.flash
      {| chat := Some 7; world := 0 |} (Line (py " Clear ")) =
    (Prompt prompt :: StartChat Demo.flash :: printed ++
     [Print (py "Chat history cleared.")],
     Awaiting {| chat := None; world := 1 |}).
Proof.
  apply (clear_failure_leaves_no_session nat nat Demo.start_chat_down
           Demo.send_echo Demo.flash {| chat := Some 7; world := 0 |}
           (py " Clear ") (py "503 service unavailable") 1).
  - reflexivity.
  - reflexivity.
Defined.

(** C1, as stated, fails: with the factory out of reach, clear leaves
    the loop without the session 7 it held; the message that follows
    reaches no session, where before the clear it reached session 7. *)
Lemma clear_failure_loses_session :
  Demo.start_chat_down Demo.flash 0 = (inl (py "503 service unavailable"), 1) /\
  step Demo.start_chat_down Demo.send_echo Demo.flash
    {| chat := Some 7; world := 0 |} (Line (py "clear")) =
  ([Prompt prompt; StartChat Demo.flash;
    Print (py "Error creating chat session: 503 service unavailable");
    Print (py "Chat history cleared.")],
   Awaiting {| chat := None; world := 1 |}) /\
  run Demo.start_chat_down Demo.send_echo Demo.flash
    {| chat := Some 7; world := 0 |} [Line (py "clear"); Line (py "hi")] =
  ([Prompt prompt; StartChat Demo.flash;
    Print (py "Error creating chat session: 503 service unavailable");
    Print (py "Chat history cleared.");
    Prompt prompt;
    Print (LF :: ESC :: py "[1;31mError: " ++ none_has_no_send ++
           ESC :: py "[0m" ++ [LF]);
    Prompt prompt],
   EOFError, {| chat := None; world := 1 |}) /\
  run Demo.start_chat_down Demo.send_echo Demo.flash
    {| chat := Some 7; world := 0 |} [Line (py "hi")] =
  ([Prompt prompt; SendMessage 7 (py "hi");
    Print (LF :: ESC :: py "[1;32mGemini:" ++ ESC :: py "[0m" ++
           LF :: py "hi" ++ [LF]);
    Prompt prompt],
   EOFError, {| chat := Some 7; world := 1 |}).
Proof. repeat split; vm_compute; reflexivity. Qed.

Lemma wrap_text_width_witness :
  exists out,
    wrap_text (py "abcdefgh ij") 3 = Some out /\
    Forall (fun line => length line <= 3) (PyStr.split_nl out).
Proof. apply (wrap_text_width (py "abcdefgh ij") 3); lia. Defined.

Lemma wrap_text_blank_lines_witness :
  exists out segs,
    wrap_text (py "ab cd" ++ LF :: SP :: LF :: py "ef") 2 = Some out /\
    PyStr.split_nl out = concat segs /\
    Forall2 segment_of
      (PyStr.split_nl (py "ab cd" ++ LF :: SP :: LF :: py "ef")) segs /\
    length (filter is_empty (PyStr.split_nl out)) =
    length (filter PyStr.blank
              (PyStr.split_nl (py "ab cd" ++ LF :: SP :: LF :: py "ef"))).
Proof.
  apply (wrap_text_blank_lines (py "ab cd" ++ LF :: SP :: LF :: py "ef") 2).
  lia.
Defined.

Lemma wrap_text_keeps_word_witness :
  exists out line,
    wrap_text (py "hello wide world") 5 = Some out /\
    In line (PyStr.split_nl out) /\ infix (py "wide") line.
Proof.
  apply (wrap_text_keeps_word (py "hello wide world") (py "hello ")
           (py "wide") (py " world") 5).
  - lia.
  - repeat split; try reflexivity; try discriminate.
    right; now exists (py "hello"), SP.
  - simpl; lia.
  - reflexivity.
  - reflexivity.
Defined.

Lemma wrap_text_idempotent_witness :
  exists out,
    wrap_text (py "ab cd ef" ++ LF :: LF :: py "gh-ij") 5 = Some out /\
    wrap_text out 5 = Some out.
Proof.
  apply (wrap_text_idempotent (py "ab cd ef" ++ LF :: LF :: py "gh-ij") 5).
  - lia.
  - apply plain_spaceb_sound; reflexivity.
  - apply runs_fit_sound; reflexivity.
Defined.

Lemma infix_in (w s : str) (x : ascii) : infix w s -> In x w -> In x s.
Proof. intros (a & b & ->) H; rewrite !in_app_iff; tauto. Qed.

(** C2, as stated, fails: the only word of abcdef is longer than the
    width 3 and is cut in two.  A word that fits can be broken after
    a hyphen (aaa-bbb at width 7), and a word made of separator
    characters alone can be dropped as whitespace (U+001F at width
    1). *)
Lemma wrap_text_breaks_long_word :
  (word_at (py "abcdef") [] (py "abcdef") [] /\
   wrap_text (py "abcdef") 3 = Some (py "abc" ++ LF :: py "def") /\
   PyStr.split_nl (py "abc" ++ LF :: py "def") = [py "abc"; py "def"] /\
   forall line, In line [py "abc"; py "def"] -> ~ infix (py "abcdef") line)
  /\
  (word_at (py "x aaa-bbb") (py "x ") (py "aaa-bbb") [] /\
   wrap_text (py "x aaa-bbb") 7 = Some (py "x aaa-" ++ LF :: py "bbb") /\
   PyStr.split_nl (py "x aaa-" ++ LF :: py "bbb") = [py "x aaa-"; py "bbb"] /\
   forall line, In line [py "x aaa-"; py "bbb"] -> ~ infix (py "aaa-bbb") line)
  /\
  (word_at (py "a " ++ [US]) (py "a ") [US] [] /\
   wrap_text (py "a " ++ [US]) 1 = Some (py "a") /\
   PyStr.split_nl (py "a") = [py "a"] /\
   ~ infix [US] (py "a")).
Proof.
  repeat apply conj; try reflexivity; try discriminate;
    try (vm_compute; reflexivity); try exact I.
  - now left.
  - intros line [<- | [<- | []]] H; apply infix_length in H; simpl in H; lia.
  - right; now exists (py "x"), SP.
  - intros line [<- | [<- | []]] H; apply infix_length in H; simpl in H; lia.
  - right; now exists (py "a"), SP.
  - intros H; apply (infix_in _ _ US) in H; [|now left].
    destruct H as [H | []]; discriminate H.
Qed.

(** C8, as stated, fails: at width 2 the text a bbb wraps to a line
    that ends with a space, which the second wrapping drops.  With
    the separator U+001F, whitespace to [strip] but not to the
    wrapper, a line of one space comes out and is emptied by the
    second wrapping though every word fits. *)
Lemma wrap_text_not_idempotent :
  (wrap_text (py "a bbb") 2 =
   Some (py "a " ++ LF :: py "bb" ++ LF :: py "b") /\
   wrap_text (py "a " ++ LF :: py "bb" ++ LF :: py "b") 2 =
   Some (py "a" ++ LF :: py "bb" ++ LF :: py "b") /\
   py "a" ++ LF :: py "bb" ++ LF :: py "b" <>
   py "a " ++ LF :: py "bb" ++ LF :: py "b")
  /\
  (runs_fit 2 0 (SP :: US :: py " a") = true /\
   wrap_text (SP :: US :: py " a") 2 = Some (py " " ++ LF :: py "a") /\
   wrap_text (py " " ++ LF :: py "a") 2 = Some (LF :: py "a") /\
   LF :: py "a" <> py " " ++ LF :: py "a").
Proof.
  repeat apply conj; try discriminate; vm_compute; reflexivity.
Qed.

(** C9, as stated, fails: the text of two spaces and bbbbb has no
    blank line; wrapped at width 2 its first line is the two spaces. *)
Lemma wrap_text_adds_blank_line :
  filter PyStr.blank (PyStr.split_nl (py "  bbbbb")) = [] /\
  wrap_text (py "  bbbbb") 2 =
  Some (py "  " ++ LF :: py "bb" ++ LF :: py "bb" ++ LF :: py "b") /\
  filter PyStr.blank
    (PyStr.split_nl (py "  " ++ LF :: py "bb" ++ LF :: py "bb" ++ LF :: py "b")) =
  [py "  "].
Proof. repeat split; vm_compute; reflexivity. Qed.

(** * Further properties of the code *)

(** ** Substrings *)

Lemma startswith_spec (p s : str) :
  PyStr.startswith p s = true <-> exists b, s = p ++ b.
Proof.
  revert s; induction p as [|a p IH]; intros s; simpl.
  - split; [intros _; now exists s | reflexivity].
  - destruct s as [|c s]; [split; [discriminate | intros [b H]; discriminate H]|].
    rewrite andb_true_iff, Ascii.eqb_eq, IH; split.
    + intros [-> [b ->]]; now exists b.
    + intros [b [= -> ->]]; split; [reflexivity | now exists b].
Qed.

(** [sub in s] holds exactly when [sub] is a stretch of [s]. *)
Lemma contains_spec (sub s : str) :
  PyStr.contains sub s = true <-> infix sub s.
Proof.
  induction s as [|c s IH]; simpl.
  - rewrite orb_false_r, startswith_spec; split.
    + intros [b H]; now exists [], b.
    + intros ([|x a] & b & H); [now exists b | discriminate H].
  - rewrite orb_true_iff, startswith_spec, IH; split.
    + intros [[b H] | (a & b & ->)]; [now exists [], b | now exists (c :: a), b].
    + intros ([|x a] & b & H); [left; now exists b|].
      injection H as -> ->; right; now exists a, b.
Qed.

Lemma infix_trans (a b c : str) : infix a b -> infix b c -> infix a c.
Proof.
  intros (a1 & a2 & ->) (b1 & b2 & ->).
  exists (b1 ++ a1), (a2 ++ b2); now rewrite <- !app_assoc.
Qed.

Lemma contains_trans (a b c : str) :
  PyStr.contains a b = true -> PyStr.contains b c = true ->
  PyStr.contains a c = true.
Proof. rewrite !contains_spec; apply infix_trans. Qed.

(** ** The catalog, further *)

Lemma fallback_compatible :
  Forall (fun name => is_compatible name = true) fallback_models.
Proof. repeat constructor. Qed.

Lemma models_compatible (remote : listing) :
  Forall (fun name => is_compatible name = true)
    (snd (get_available_models remote)).
Proof.
  unfold get_available_models.
  destruct (raised remote); [apply fallback_compatible|].
  rewrite collect_compatible_filter; simpl app.
  destruct (filter is_compatible (yielded remote)) as [|m ms] eqn:E;
    [apply fallback_compatible|].
  rewrite <- E; apply Forall_forall; intros name H.
  now apply filter_In in H.
Qed.

Lemma models_not_nil (remote : listing) :
  snd (get_available_models remote) <> [].
Proof.
  unfold get_available_models.
  destruct (raised remote); [discriminate|].
  destruct (collect_compatible [] (yielded remote)); discriminate.
Qed.

Lemma filter_all {A : Type} (f : A -> bool) (l : list A) :
  Forall (fun x => f x = true) l -> filter f l = l.
Proof.
  induction 1 as [|x l Hx _ IH]; [reflexivity|].
  simpl; now rewrite Hx, IH.
Qed.

(** X1.  Whatever the remote listing does, the catalog fetch returns
    at least one model name, and every name it returns contains the
    family marker gemini, one of the three core family names and none
    of the five excluded markers. *)
Theorem get_available_models_usable (remote : listing) :
  snd (get_available_models remote) <> [] /\
  forall name, In name (snd (get_available_models remote)) ->
    PyStr.contains (py "gemini") name = true /\
    (exists core, In core core_models /\ PyStr.contains core name = true) /\
    (forall excluded, In excluded excluded_markers ->
       PyStr.contains excluded name = false).
Proof.
  split; [apply models_not_nil|]; intros name Hin.
  pose proof (models_compatible remote) as H.
  rewrite Forall_forall in H; specialize (H name Hin).
  rewrite is_compatible_stages, !andb_true_iff, negb_true_iff in H.
  destruct H as [[Hg Hex] Hcore]; split; [assumption|]; split.
  - apply existsb_exists in Hcore as (core & Hc & Hcc); eauto.
  - intros excluded He.
    destruct (PyStr.contains excluded name) eqn:E; [|reflexivity].
    assert (existsb (fun ex => PyStr.contains ex name) excluded_markers = true)
      by (apply existsb_exists; eauto).
    congruence.
Qed.

(** X2.  When the listing does not raise and holds a compatible name,
    the fetch prints nothing and returns the compatible names of the
    listing, in the order of the listing and as often as they occur. *)
Theorem get_available_models_filters (models : list str) :
  filter is_compatible models <> [] ->
  get_available_models {| yielded := models; raised := None |} =
  ([], filter is_compatible models).
Proof.
  intros H; unfold get_available_models; simpl.
  rewrite collect_compatible_filter; simpl app.
  destruct (filter is_compatible models); [congruence | reflexivity].
Qed.

Lemma get_available_models_filters_witness :
  get_available_models
    {| yielded := [py "models/gemini-1.0-pro"; py "models/text-bison";
                   py "models/gemini-1.5-flash-tts";
                   py "models/gemini-1.0-pro"];
       raised := None |} =
  ([], filter is_compatible
         [py "models/gemini-1.0-pro"; py "models/text-bison";
          py "models/gemini-1.5-flash-tts"; py "models/gemini-1.0-pro"]).
Proof.
  apply (get_available_models_filters
           [py "models/gemini-1.0-pro"; py "models/text-bison";
            py "models/gemini-1.5-flash-tts"; py "models/gemini-1.0-pro"]).
  vm_compute; discriminate.
Defined.

(** X3.  The fetch is stable: given its own result as the listing, it
    prints nothing and returns that result again. *)
Theorem get_available_models_stable (remote : listing) :
  get_available_models
    {| yielded := snd (get_available_models remote); raised := None |} =
  ([], snd (get_available_models remote)).
Proof.
  unfold get_available_models at 1; simpl raised; simpl yielded.
  rewrite collect_compatible_filter, (filter_all _ _ (models_compatible remote)).
  simpl app; pose proof (models_not_nil remote) as Hne.
  destruct (snd (get_available_models remote)); [congruence | reflexivity].
Qed.

(** X4.  The family-marker test never decides: a name that holds one
    of the core family names holds gemini, so a name is kept exactly
    when it holds a core family name and no excluded marker. *)
Theorem is_compatible_core (name : str) :
  is_compatible name =
  negb (existsb (fun excluded => PyStr.contains excluded name)
          excluded_markers) &&
  existsb (fun core_model => PyStr.contains core_model name) core_models.
Proof.
  rewrite is_compatible_stages.
  destruct (existsb (fun core_model => PyStr.contains core_model name)
              core_models) eqn:E; [|now rewrite !andb_false_r].
  apply existsb_exists in E as (core & Hcore & Hc).
  assert (Hg : PyStr.contains (py "gemini") core = true)
    by (destruct Hcore as [<- | [<- | [<- | []]]]; reflexivity).
  now rewrite (contains_trans _ _ _ Hg Hc).
Qed.

(** ** What wrapping keeps *)

Lemma content_app (a b : str) : content (a ++ b) = content a ++ content b.
Proof. apply filter_app. Qed.

Lemma content_blank (s : str) : PyStr.blank s = true -> content s = [].
Proof.
  rewrite blank_spec; induction s as [|c s IH]; simpl; [reflexivity|].
  intros H; apply andb_true_iff in H as [Hc Hs].
  rewrite Hc; simpl; auto.
Qed.

Lemma content_concat_app (a b : list str) :
  content (concat (a ++ b)) = content (concat a) ++ content (concat b).
Proof. now rewrite concat_app, content_app. Qed.

Lemma content_drop_trailing (cur_line : list str) :
  content (concat (TextWrap.drop_trailing cur_line)) =
  content (concat cur_line).
Proof.
  destruct (drop_trailing_cases cur_line)
    as [[-> _] | (init & last & -> & Hb & ->)]; [reflexivity|].
  rewrite content_concat_app; simpl; rewrite app_nil_r, (content_blank _ Hb).
  now rewrite app_nil_r.
Qed.

Lemma content_emit (lines pieces : list str) :
  content (concat match pieces with
                  | [] => lines
                  | _ :: _ => lines ++ [concat pieces]
                  end) =
  content (concat lines) ++ content (concat pieces).
Proof.
  destruct pieces as [|p ps]; [simpl; now rewrite app_nil_r|].
  rewrite content_concat_app; simpl concat at 2; now rewrite app_nil_r.
Qed.

(** A pass moves characters from the chunks to the lines and loses
    only whitespace. *)
Lemma wrap_line_content (width : nat) (top : str) (below lines : list str) :
  0 < width ->
  content (concat (snd (TextWrap.wrap_line width top below lines))) ++
  content (concat (fst (TextWrap.wrap_line width top below lines))) =
  content (concat lines) ++ content (concat (top :: below)).
Proof.
  intros Hw.
  destruct (wrap_line_cases width top below lines Hw)
    as (chunks1 & taken & rest & cl & chunks3 & H1 & Hc & _ & Hcase & ->).
  simpl fst; simpl snd.
  rewrite content_emit, content_drop_trailing, <- app_assoc; f_equal.
  assert (E1 : content (concat (top :: below)) = content (concat chunks1)).
  { destruct H1 as [-> | (-> & Hb & _)]; [reflexivity|].
    simpl; now rewrite content_app, (content_blank _ Hb). }
  rewrite E1, Hc, content_concat_app.
  destruct Hcase as [(-> & -> & _)
                    | (top2 & below2 & e & -> & _ & _ & _ & -> & ->)];
    [reflexivity|].
  rewrite content_concat_app, <- app_assoc; f_equal.
  simpl; rewrite app_nil_r, !content_app, app_assoc, <- content_app.
  now rewrite firstn_skipn.
Qed.

Lemma wrap_loop_content (width fuel : nat) (chunks lines r : list str) :
  0 < width ->
  TextWrap.wrap_loop fuel width chunks lines = Some r ->
  content (concat r) = content (concat lines) ++ content (concat chunks).
Proof.
  intros Hw H.
  pose proof (wrap_loop_invariant width
    (fun cs ls => content (concat ls) ++ content (concat cs) =
                  content (concat lines) ++ content (concat chunks))) as Hinv.
  cbv beta in Hinv.
  rewrite <- (Hinv ltac:(intros top below ls HI;
                         now rewrite wrap_line_content) fuel chunks lines r
                eq_refl H).
  simpl; now rewrite app_nil_r.
Qed.

Lemma content_translate (s : str) :
  content (TextWrap.translate_ws s) = content s.
Proof.
  induction s as [|c s IH]; [reflexivity|].
  simpl; destruct (TextWrap.is_ws c) eqn:E; [|now rewrite IH].
  rewrite (is_ws_isspace c E); simpl; exact IH.
Qed.

Lemma content_spaces (k : nat) : content (repeat SP k) = [].
Proof. induction k; [reflexivity | exact IHk]. Qed.

Lemma content_expandtabs (s : str) (col : nat) :
  content (PyStr.expandtabs_from TextWrap.tabsize col s) = content s.
Proof.
  revert col; induction s as [|c s IH]; intros col; [reflexivity|].
  rewrite expandtabs_from_cons.
  destruct (Ascii.eqb c TAB) eqn:E.
  - apply Ascii.eqb_eq in E; subst c.
    rewrite content_app, content_spaces, IH; reflexivity.
  - simpl; now rewrite IH.
Qed.

Lemma content_munge (s : str) :
  content (TextWrap.munge_whitespace s) = content s.
Proof.
  unfold TextWrap.munge_whitespace, PyStr.expandtabs.
  now rewrite content_translate, content_expandtabs.
Qed.

Lemma content_join (ls : list str) :
  content (PyStr.join_nl ls) = content (concat ls).
Proof.
  induction ls as [|l ls IH]; [reflexivity|].
  destruct ls as [|l2 ls]; [simpl; now rewrite app_nil_r|].
  rewrite join_nl_cons by discriminate.
  rewrite content_app; simpl concat; rewrite content_app; f_equal.
  exact IH.
Qed.

Lemma content_segment (width : nat) (line : str) (seg : list str) :
  wrap_segment width line = Some seg ->
  content (concat seg) = content line.
Proof.
  unfold wrap_segment; destruct (PyStr.blank line) eqn:E.
  - intros [= <-]; now rewrite (content_blank _ E).
  - intros H; apply wrap_loop_of in H as [Hw H].
    rewrite (wrap_loop_content _ _ _ _ _ Hw H); simpl.
    unfold TextWrap.split_chunks; now rewrite split_concat, content_munge.
Qed.

(** X5.  With a positive width, wrapping loses, adds and moves no
    character other than whitespace: the characters of the output that
    are not whitespace are those of the text, in the same order. *)
Theorem wrap_text_keeps_content (text : str) (width : nat) :
  0 < width ->
  exists out, wrap_text text width = Some out /\ content out = content text.
Proof.
  intros Hw.
  destruct (wrap_text_segments text width Hw) as (out & segs & Hout & E & H).
  exists out; split; [assumption|].
  rewrite <- (join_split out), <- (join_split text), !content_join, E.
  clear - H; induction H as [|l seg ls segs' Hseg _ IH]; [reflexivity|].
  simpl; rewrite concat_app, !content_app, IH.
  now rewrite (content_segment _ _ _ Hseg).
Qed.

Lemma wrap_text_keeps_content_witness :
  exists out,
    wrap_text (TAB :: py "a-b  cdefgh" ++ CR :: LF :: py " i") 3 = Some out /\
    content out = content (TAB :: py "a-b  cdefgh" ++ CR :: LF :: py " i").
Proof.
  apply (wrap_text_keeps_content
           (TAB :: py "a-b  cdefgh" ++ CR :: LF :: py " i") 3).
  lia.
Defined.

Lemma in_join_nl (ls : list str) (c : ascii) :
  In c (PyStr.join_nl ls) -> c = LF \/ exists l, In l ls /\ In c l.
Proof.
  induction ls as [|l ls IH]; [intros []|].
  destruct ls as [|l2 ls]; [intros H; right; exists l; simpl; auto|].
  rewrite join_nl_cons by discriminate.
  rewrite in_app_iff; intros [H | [<- | H]]; [right | now left |].
  - exists l; simpl; auto.
  - destruct (IH H) as [-> | (l' & Hl & Hc)]; [now left|].
    right; exists l'; simpl; auto.
Qed.

Lemma Forall2_in_r {A B : Type} (R : A -> B -> Prop) (l : list A)
    (l' : list B) (b : B) :
  Forall2 R l l' -> In b l' -> exists a, In a l /\ R a b.
Proof.
  induction 1 as [|x y l l' Hxy _ IH]; [intros []|].
  intros [<- | H]; [exists x; simpl; auto|].
  destruct (IH H) as (a & Ha & Hab); exists a; simpl; auto.
Qed.

(** X6.  With a positive width every character of the output is a
    line break, a space, or a character of the text that is not
    whitespace: tabs, carriage returns, vertical tabs and form feeds
    never come out. *)
Theorem wrap_text_chars (text : str) (width : nat) :
  0 < width ->
  exists out,
    wrap_text text width = Some out /\
    forall c, In c out ->
      c = LF \/ c = SP \/ (In c text /\ TextWrap.is_ws c = false).
Proof.
  intros Hw.
  destruct (wrap_text_segments text width Hw) as (out & segs & Hout & E & H).
  exists out; split; [assumption|]; intros c Hc.
  rewrite <- (join_split out), E in Hc.
  apply in_join_nl in Hc as [-> | (l & Hl & Hc)]; [now left | right].
  apply in_concat in Hl as (seg & Hseg & Hl).
  destruct (Forall2_in_r _ _ _ seg H Hseg) as (line & Hline & Hwrap).
  unfold wrap_segment in Hwrap; destruct (PyStr.blank line).
  - injection Hwrap as <-; destruct Hl as [<- | []]; destruct Hc.
  - apply wrap_chars in Hwrap; rewrite Forall_forall in Hwrap.
    specialize (Hwrap l Hl); rewrite Forall_forall in Hwrap.
    destruct (munge_chars line c (Hwrap c Hc)) as [-> | [Hin Hws]];
      [now left | right; split; [|assumption]].
    destruct (split_nl_infix text line Hline) as (a & b & ->).
    rewrite !in_app_iff; tauto.
Qed.

Lemma wrap_text_chars_witness :
  exists out,
    wrap_text (TAB :: py "a" ++ CR :: py "b") 4 = Some out /\
    forall c, In c out ->
      c = LF \/ c = SP \/
      (In c (TAB :: py "a" ++ CR :: py "b") /\ TextWrap.is_ws c = false).
Proof. apply (wrap_text_chars (TAB :: py "a" ++ CR :: py "b") 4); lia. Defined.

Lemma wrap_zero (line : str) : TextWrap.wrap line 0 = None.
Proof. reflexivity. Qed.

Lemma wrap_lines_zero (ls : list str) :
  wrap_lines 0 ls = None <-> exists line, In line ls /\ PyStr.blank line = false.
Proof.
  induction ls as [|l ls IH]; simpl.
  - split; [discriminate | intros (line & [] & _)].
  - unfold wrap_segment; rewrite wrap_zero.
    destruct (PyStr.blank l) eqn:E.
    + destruct (wrap_lines 0 ls) as [segs|].
      * split; [discriminate|].
        intros (line & [<- | H] & Hb); [congruence|].
        destruct IH as [_ IH]; discriminate IH; eauto.
      * split; [intros _ | reflexivity].
        destruct IH as [IH _]; destruct (IH eq_refl) as (line & H & Hb).
        exists line; auto.
    + split; [intros _; exists l; auto | reflexivity].
Qed.

(** X7.  At width 0 [wrap_text] raises exactly when the text has a
    line that is not blank: a text of blank lines never reaches the
    wrapper. *)
Theorem wrap_text_zero_width (text : str) :
  wrap_text text 0 = None <->
  exists line, In line (PyStr.split_nl text) /\ PyStr.blank line = false.
Proof.
  rewrite <- wrap_lines_zero; unfold wrap_text.
  destruct (wrap_lines 0 (PyStr.split_nl text)); split;
    try discriminate; reflexivity.
Qed.

Lemma join_nl_empties (n : nat) :
  PyStr.join_nl (repeat [] n) = repeat LF (n - 1).
Proof.
  induction n as [|n IH]; [reflexivity|].
  destruct n as [|n]; [reflexivity|].
  change (repeat [] (S (S n))) with (@nil ascii :: repeat [] (S n)).
  rewrite join_nl_cons by discriminate.
  rewrite IH; simpl; now rewrite Nat.sub_0_r.
Qed.

Lemma wrap_lines_blank (width : nat) (ls : list str) :
  Forall (fun l => PyStr.blank l = true) ls ->
  wrap_lines width ls = Some (repeat [] (length ls)).
Proof.
  induction 1 as [|l ls Hl _ IH]; [reflexivity|].
  simpl; unfold wrap_segment; now rewrite Hl, IH.
Qed.

(** X8.  A text all of whose lines are blank wraps, at any width, 0
    included, to its line breaks alone: every space, tab and other
    whitespace between them is gone. *)
Theorem wrap_text_blank_text (text : str) (width : nat) :
  Forall (fun l => PyStr.blank l = true) (PyStr.split_nl text) ->
  wrap_text text width =
  Some (repeat LF (length (PyStr.split_nl text) - 1)).
Proof.
  intros H; unfold wrap_text.
  now rewrite (wrap_lines_blank width _ H), join_nl_empties.
Qed.

Lemma wrap_text_blank_text_witness :
  wrap_text (py "  " ++ LF :: TAB :: LF :: [US]) 0 =
  Some (repeat LF (length (PyStr.split_nl (py "  " ++ LF :: TAB :: LF :: [US]))
                   - 1)).
Proof.
  apply (wrap_text_blank_text (py "  " ++ LF :: TAB :: LF :: [US]) 0).
  repeat constructor.
Defined.

(** X9.  With a positive width wrapping never joins lines: the output
    has at least as many lines as the text. *)
Theorem wrap_text_line_count (text : str) (width : nat) :
  0 < width ->
  exists out,
    wrap_text text width = Some out /\
    length (PyStr.split_nl text) <= length (PyStr.split_nl out).
Proof.
  intros Hw.
  destruct (wrap_text_segments text width Hw) as (out & segs & Hout & E & H).
  exists out; split; [assumption|]; rewrite E.
  clear - H; induction H as [|l seg ls segs' Hseg _ IH]; [simpl; lia|].
  apply wrap_segment_facts in Hseg as (Hseg & _).
  apply segment_not_nil in Hseg.
  simpl; rewrite length_app; destruct seg; [congruence | simpl; lia].
Qed.

Lemma wrap_text_line_count_witness :
  exists out,
    wrap_text (py "ab cd" ++ LF :: py "ef") 2 = Some out /\
    length (PyStr.split_nl (py "ab cd" ++ LF :: py "ef")) <=
    length (PyStr.split_nl out).
Proof. apply (wrap_text_line_count (py "ab cd" ++ LF :: py "ef") 2); lia. Defined.

(** X10.  A text each of whose lines is empty or settled (not longer
    than the width, with no whitespace but spaces and a last character
    that is not whitespace) is returned as it is. *)
Theorem wrap_text_fixed (text : str) (width : nat) :
  Forall (fun l => l = [] \/ settled width l) (PyStr.split_nl text) ->
  wrap_text text width = Some text.
Proof.
  intros H; unfold wrap_text.
  now rewrite (wrap_lines_fixed width _ H), join_split.
Qed.

Lemma settled_check (width : nat) (s : str) (x : ascii) :
  length (s ++ [x]) <= width -> PyStr.isspace x = false ->
  forallb (fun c => Ascii.eqb c SP || negb (PyStr.isspace c)) (s ++ [x]) = true ->
  settled width (s ++ [x]).
Proof.
  intros Hlen Hx Ht; repeat split; eauto.
  - intros E; now apply app_eq_nil in E as [_ E].
  - apply Forall_forall; intros c Hc.
    rewrite forallb_forall in Ht; specialize (Ht c Hc).
    apply orb_true_iff in Ht as [Ht | Ht].
    + left; now apply Ascii.eqb_eq.
    + right; now apply negb_true_iff.
Qed.

Lemma wrap_text_fixed_witness :
  wrap_text (py "  ab cd" ++ LF :: LF :: py "e-f") 7 =
  Some (py "  ab cd" ++ LF :: LF :: py "e-f").
Proof.
  apply (wrap_text_fixed (py "  ab cd" ++ LF :: LF :: py "e-f") 7).
  change (Forall (fun l => l = [] \/ settled 7 l)
            [py "  ab cd"; []; py "e-f"]).
  apply Forall_cons; [|apply Forall_cons; [|apply Forall_cons]].
  - right; apply (settled_check 7 (py "  ab c") "d"%char);
      [simpl; lia | reflexivity | reflexivity].
  - now left.
  - right; apply (settled_check 7 (py "e-") "f"%char);
      [simpl; lia | reflexivity | reflexivity].
  - apply Forall_nil.
Defined.

(** ** The read loop, further *)

Section LoopProperties.

Variable Session : Type.
Variable World : Type.
Variable start_chat : str -> World -> (str + Session) * World.
Variable send_message : Session -> str -> World -> (str + str) * World.

Lemma blank_strip (raw : str) : PyStr.blank raw = true -> PyStr.strip raw = [].
Proof. unfold PyStr.blank; destruct (PyStr.strip raw); [auto | discriminate]. Qed.

(** X11.  A line that is empty or whitespace only does nothing: the
    prompt is all that is written, no call is made, and the session
    and the world stay as they are. *)
Theorem blank_line_ignored (model_name : str) (st : loop_state Session World)
    (raw : str) :
  PyStr.blank raw = true ->
  step start_chat send_message model_name st (Line raw) =
  ([Prompt prompt], Awaiting st).
Proof.
  intros H; unfold step; now rewrite (blank_strip raw H).
Qed.

Lemma calls_turn_error (error_str : str) :
  filter (@is_call Session) (turn_error error_str) = [].
Proof. unfold turn_error; now destruct (_ && _). Qed.

Lemma calls_create_chat (model_name : str) (w : World) :
  filter (@is_call Session)
    (snd (fst (create_chat start_chat model_name w))) =
  [StartChat model_name].
Proof.
  unfold create_chat; destruct (start_chat model_name w) as [[e | c] w'];
    [|reflexivity].
  simpl; now destruct (_ && _).
Qed.

(** Which of the four branches of the loop body a line takes. *)
Lemma line_cases (raw : str) :
  ends_loop (Line raw) = true \/
  (ends_loop (Line raw) = false /\ is_clear (Line raw) = true) \/
  (ends_loop (Line raw) = false /\ is_clear (Line raw) = false /\
   PyStr.strip raw = []) \/
  is_message (PyStr.strip raw).
Proof.
  unfold is_message, ends_loop, is_clear.
  destruct (PyStr.mem (PyStr.lower (PyStr.strip raw)) [py "exit"; py "quit"]);
    [now left | right].
  destruct (PyStr.eqb (PyStr.lower (PyStr.strip raw)) (py "clear"));
    [now left | right].
  destruct (PyStr.strip raw); [left; auto | right].
  repeat split; discriminate.
Qed.

Lemma step_clear (model_name : str) (st : loop_state Session World)
    (raw : str) :
  ends_loop (Line raw) = false -> is_clear (Line raw) = true ->
  step start_chat send_message model_name st (Line raw) =
  (Prompt prompt ::
   snd (fst (create_chat start_chat model_name (world st))) ++
   [Print (py "Chat history cleared.")],
   Awaiting
     {| chat := fst (fst (create_chat start_chat model_name (world st)));
        world := snd (create_chat start_chat model_name (world st)) |}).
Proof.
  simpl; intros H1 H2; unfold step; rewrite H1, H2.
  now destruct (create_chat start_chat model_name (world st)) as [[c ev] w'].
Qed.

Lemma step_ignored (model_name : str) (st : loop_state Session World)
    (raw : str) :
  ends_loop (Line raw) = false -> is_clear (Line raw) = false ->
  PyStr.strip raw = [] ->
  step start_chat send_message model_name st (Line raw) =
  ([Prompt prompt], Awaiting st).
Proof. simpl; intros H1 H2 H3; unfold step; now rewrite H1, H2, H3. Qed.

Lemma step_ends (model_name : str) (st : loop_state Session World)
    (k : keyboard) :
  ends_loop k = true ->
  exists events e,
    step start_chat send_message model_name st k = (events, Terminated e).
Proof.
  destruct k as [raw|]; simpl; [|eauto].
  intros H; unfold step; rewrite H; eauto.
Qed.

Lemma step_goes_on (model_name : str) (st : loop_state Session World)
    (k : keyboard) :
  ends_loop k = false ->
  exists events st',
    step start_chat send_message model_name st k = (events, Awaiting st').
Proof.
  destruct k as [raw|]; [|discriminate]; intros H.
  destruct (line_cases raw) as [H1 | [[_ H2] | [(_ & H2 & H3) | Hm]]].
  - congruence.
  - rewrite (step_clear model_name st raw H H2); eauto.
  - rewrite (step_ignored model_name st raw H H2 H3); eauto.
  - rewrite (step_message Session World start_chat send_message
               model_name st raw Hm); eauto.
Qed.


Lemma turn_chat (st : loop_state Session World) (user_input : str) :
  chat (snd (turn send_message st user_input)) = chat st.
Proof.
  unfold turn; destruct (chat st) as [c|] eqn:E; [|exact E].
  now destruct (send_message c user_input (world st)) as [[e | t] w'].
Qed.

(** X13.  The session the loop holds changes on clear only: after a
    clear it is what the factory returned, the new session or none;
    after any other input that leaves the loop running it is the
    session held before. *)
Theorem session_changes_on_clear_only (model_name : str)
    (st st' : loop_state Session World) (k : keyboard)
    (events : list (event Session)) :
  step start_chat send_message model_name st k = (events, Awaiting st') ->
  chat st' =
  if is_clear k
  then match fst (start_chat model_name (world st)) with
       | inr c => Some c
       | inl _ => None
       end
  else chat st.
Proof.
  destruct k as [raw|]; [|discriminate].
  destruct (line_cases raw) as [H1 | [[H1 H2] | [(H1 & H2 & H3) | Hm]]].
  - destruct (step_ends model_name st (Line raw) H1) as (ev & e & ->).
    discriminate.
  - rewrite (step_clear model_name st raw H1 H2), H2.
    intros [= _ <-]; simpl; unfold create_chat.
    now destruct (start_chat model_name (world st)) as [[e | c] w'].
  - rewrite (step_ignored model_name st raw H1 H2 H3), H2.
    now intros [= _ <-].
  - rewrite (step_message Session World start_chat send_message
               model_name st raw Hm).
    destruct Hm as (_ & _ & Hc); unfold is_clear; rewrite Hc.
    intros [= _ <-]; apply turn_chat.
Qed.

Lemma calls_turn (st : loop_state Session World) (user_input : str) :
  filter (@is_call Session) (fst (turn send_message st user_input)) =
  match chat st with
  | Some c => [SendMessage c user_input]
  | None => []
  end.
Proof.
  unfold turn; destruct (chat st) as [c|]; [|apply calls_turn_error].
  destruct (send_message c user_input (world st)) as [[e | text] w'];
    simpl; [now rewrite calls_turn_error|].
  destruct (wrap_text text 100); [reflexivity | now rewrite calls_turn_error].
Qed.

Lemma step_ends_calls (model_name : str) (st : loop_state Session World)
    (k : keyboard) :
  ends_loop k = true ->
  filter (@is_call Session)
    (fst (step start_chat send_message model_name st k)) = [].
Proof.
  destruct k as [raw|]; [|reflexivity].
  unfold ends_loop; intros H; unfold step; now rewrite H.
Qed.

Lemma calls_clear (model_name : str) (st : loop_state Session World)
    (raw : str) :
  ends_loop (Line raw) = false -> is_clear (Line raw) = true ->
  filter (@is_call Session)
    (fst (step start_chat send_message model_name st (Line raw))) =
  [StartChat model_name].
Proof.
  intros H1 H2; rewrite (step_clear model_name st raw H1 H2).
  simpl; rewrite filter_app, calls_create_chat; reflexivity.
Qed.

(** X14.  An input causes at most one call on the service.  A message
    is sent only to the session the loop holds, and what is sent is
    the line stripped of its surrounding whitespace; the factory is
    called only on clear, for the model of the loop. *)
Theorem step_calls (model_name : str) (st : loop_state Session World)
    (k : keyboard) :
  let calls :=
    filter (@is_call Session)
      (fst (step start_chat send_message model_name st k)) in
  length calls <= 1 /\
  (forall c text, In (SendMessage c text) calls ->
     chat st = Some c /\
     exists raw, k = Line raw /\ text = PyStr.strip raw /\ is_message text) /\
  (forall m, In (StartChat m) calls -> m = model_name /\ is_clear k = true).
Proof.
  cbv zeta; destruct k as [raw|];
    [|simpl; repeat split; try lia; intros; contradiction].
  destruct (line_cases raw) as [H1 | [[H1 H2] | [(H1 & H2 & H3) | Hm]]].
  - rewrite (step_ends_calls model_name st (Line raw) H1).
    simpl; repeat split; try lia; intros; contradiction.
  - rewrite (calls_clear model_name st raw H1 H2).
    split; [simpl; lia|]; split.
    + intros c text [H | []]; discriminate H.
    + intros m [[= <-] | []]; auto.
  - rewrite (step_ignored model_name st raw H1 H2 H3).
    simpl; repeat split; try lia; intros; contradiction.
  - rewrite (step_message Session World start_chat send_message
               model_name st raw Hm).
    simpl fst; simpl filter; rewrite calls_turn.
    destruct (chat st) as [c|];
      [|simpl; repeat split; try lia; intros; contradiction].
    split; [simpl; lia|]; split.
    + intros c' text [[= <- <-] | []]; split; [reflexivity|].
      now exists raw.
    + intros m [H | []]; discriminate H.
Qed.


Lemma step_without_session (model_name : str)
    (st st' : loop_state Session World) (k : keyboard)
    (events : list (event Session)) :
  chat st = None -> is_clear k = false ->
  step start_chat send_message model_name st k = (events, Awaiting st') ->
  chat st' = None /\ filter (@is_call Session) events = [].
Proof.
  intros Hnone Hclear; destruct k as [raw|]; [|discriminate].
  destruct (line_cases raw) as [H1 | [[H1 H2] | [(H1 & H2 & H3) | Hm]]].
  - destruct (step_ends model_name st (Line raw) H1) as (ev & e & ->).
    discriminate.
  - congruence.
  - rewrite (step_ignored model_name st raw H1 H2 H3).
    intros [= <- <-]; auto.
  - rewrite (step_message Session World start_chat send_message
               model_name st raw Hm).
    intros [= <- <-]; split; [now rewrite turn_chat|].
    simpl; now rewrite calls_turn, Hnone.
Qed.

(** X15.  Once the loop holds no session it stays without one, and
    makes no call on the service at all, until a clear is typed. *)
Theorem run_without_session (model_name : str) (keys : list keyboard)
    (st : loop_state Session World) :
  chat st = None -> existsb is_clear keys = false ->
  filter (@is_call Session)
    (fst (fst (run start_chat send_message model_name st keys))) = [] /\
  chat (snd (run start_chat send_message model_name st keys)) = None.
Proof.
  revert st; induction keys as [|k keys IH]; intros st Hnone Hclear;
    [simpl; auto|].
  simpl in Hclear; apply orb_false_iff in Hclear as [Hk Hkeys].
  cbn [run].
  destruct (step start_chat send_message model_name st k)
    as [events [st'|e]] eqn:E.
  - destruct (step_without_session model_name st st' k events Hnone Hk E)
      as [Hnone' Hcalls].
    specialize (IH st' Hnone' Hkeys).
    destruct (run start_chat send_message model_name st' keys)
      as [[events' e'] st''].
    simpl in *; rewrite filter_app, Hcalls; auto.
  - simpl; split; [|assumption].
    destruct (ends_loop k) eqn:Ek.
    + pose proof (step_ends_calls model_name st k Ek) as H.
      now rewrite E in H.
    + destruct (step_goes_on model_name st k Ek) as (ev & st' & E').
      congruence.
Qed.




(** X17.  What follows an exit, a quit or a Ctrl+C is never read: the
    loop over a keyboard that holds one of them does the same whatever
    is typed after. *)
Theorem run_stops (model_name : str) (keys more : list keyboard)
    (st : loop_state Session World) :
  existsb ends_loop keys = true ->
  run start_chat send_message model_name st (keys ++ more) =
  run start_chat send_message model_name st keys.
Proof.
  revert st; induction keys as [|k keys IH]; intros st; [discriminate|].
  cbn [existsb]; rewrite <- app_comm_cons; cbn [run].
  destruct (ends_loop k) eqn:Ek.
  - intros _; destruct (step_ends model_name st k Ek) as (ev & e & ->).
    reflexivity.
  - intros Hkeys; destruct (step_goes_on model_name st k Ek) as (ev & st' & ->).
    now rewrite (IH st' Hkeys).
Qed.


(** X19.  The reply printed for a turn that succeeds is the response
    wrapped at 100 columns: none of its lines is longer than 100, and
    its characters that are not whitespace are those of the response,
    in order. *)
Theorem reply_is_wrapped (model_name : str) (st : loop_state Session World)
    (c : Session) (raw text : str) (w' : World) :
  is_message (PyStr.strip raw) ->
  chat st = Some c ->
  send_message c (PyStr.strip raw) (world st) = (inr text, w') ->
  exists wrapped,
    step start_chat send_message model_name st (Line raw) =
    ([Prompt prompt; SendMessage c (PyStr.strip raw);
      Print (LF :: ESC :: py "[1;32mGemini:" ++ ESC :: py "[0m" ++
             LF :: wrapped ++ [LF])],
     Awaiting {| chat := Some c; world := w' |}) /\
    Forall (fun line => length line <= 100) (PyStr.split_nl wrapped) /\
    content wrapped = content text.
Proof.
  intros Hmsg Hchat Hsend.
  destruct (wrap_text_segments text 100 ltac:(lia))
    as (out & segs & Hout & E & H).
  exists out; split; [|split].
  - rewrite (step_message Session World start_chat send_message
               model_name st raw Hmsg).
    unfold turn; now rewrite Hchat, Hsend, Hout.
  - rewrite E; apply Forall_concat.
    clear - H; induction H as [|l seg ls segs' Hseg _ IH];
      constructor; [|assumption].
    now apply wrap_segment_facts in Hseg.
  - rewrite <- (join_split out), <- (join_split text), !content_join, E.
    clear - H; induction H as [|l seg ls segs' Hseg _ IH]; [reflexivity|].
    simpl; rewrite concat_app, !content_app, IH.
    now rewrite (content_segment _ _ _ Hseg).
Qed.

(** X20.  [create_chat] calls the factory once, for the model it is
    given, and prints exactly when it returns no session. *)
Theorem create_chat_prints_on_failure (model_name : str) (w : World) :
  filter (@is_call Session)
    (snd (fst (create_chat start_chat model_name w))) =
  [StartChat model_name] /\
  (fst (fst (create_chat start_chat model_name w)) = None <->
   exists line,
     In (Print line) (snd (fst (create_chat start_chat model_name w)))).
Proof.
  split; [apply calls_create_chat|].
  unfold create_chat; destruct (start_chat model_name w) as [[e | c] w'];
    simpl.
  - split; [intros _ | reflexivity].
    destruct (_ && _); eexists; right; left; reflexivity.
  - split; [discriminate|].
    intros (line & [H | []]); discriminate H.
Qed.

End LoopProperties.

(** ** [setup_api], [list_models_command] and [main] *)

Section ProgramProperties.

Variable Session : Type.
Variable World : Type.
Variable start_chat : str -> World -> (str + Session) * World.
Variable send_message : Session -> str -> World -> (str + str) * World.
Variable configure : str -> World -> option str * World.
Variable list_models : World -> listing * World.

Lemma setup_api_no_key (api_key : option str) (w : World) :
  api_key = None \/ api_key = Some [] ->
  setup_api configure api_key w =
  (say key_instructions, SysExit 1, w) :>
    list (action Session) * returned bool * World.
Proof. intros [-> | ->]; reflexivity. Qed.

(** X21.  Without the key, or with an empty one, the program prints
    the four lines of instructions and exits with status 1, whatever
    the options: nothing is configured, listed or created, and the
    keyboard is not read. *)
Theorem main_missing_key (args : arguments) (api_key : option str)
    (keys : list keyboard) (w : World) :
  api_key = None \/ api_key = Some [] ->
  main start_chat send_message configure list_models args api_key keys w =
  (say key_instructions, SystemExit 1, w).
Proof.
  intros H; unfold main, list_models_command.
  rewrite (setup_api_no_key api_key w H).
  now destruct (list_models_flag args).
Qed.

(** X22.  When the library refuses the key the program prints the
    error and returns, whatever the options: after the one call that
    raised, nothing is listed or created and the keyboard is not
    read. *)
Theorem main_configure_refused (args : arguments) (c : ascii)
    (key error_str : str) (keys : list keyboard) (w w' : World) :
  configure (c :: key) w = (Some error_str, w') ->
  main start_chat send_message configure list_models args
    (Some (c :: key)) keys w =
  ([Configure (c :: key);
    Did (Print (py "Error configuring Gemini API: " ++ error_str))],
   Finished, w').
Proof.
  intros H; unfold main, list_models_command, setup_api; rewrite H.
  now destruct (list_models_flag args).
Qed.

Lemma say_no_call (lines : list str) (e : event Session) :
  In (Did e) (say lines) -> exists line, e = Print line.
Proof.
  unfold say; rewrite in_map_iff; intros (line & [= <-] & _); eauto.
Qed.

Lemma setup_api_prints (api_key : option str) (w : World)
    (e : event Session) :
  In (Did e) (fst (fst (setup_api configure api_key w))) ->
  exists line, e = Print line.
Proof.
  unfold setup_api; destruct api_key as [[|c key]|];
    [exact (say_no_call key_instructions e) |
     | exact (say_no_call key_instructions e)].
  destruct (configure (c :: key) w) as [[err|] w']; simpl.
  - intros [H | [[= <-] | []]]; [discriminate H | eauto].
  - intros [H | []]; discriminate H.
Qed.

Lemma list_models_command_prints (api_key : option str) (w : World)
    (e : event Session) :
  In (Did e) (fst (fst (list_models_command configure list_models api_key w)))
  -> exists line, e = Print line.
Proof.
  unfold list_models_command.
  pose proof (setup_api_prints api_key w e) as Hsetup.
  destruct (setup_api configure api_key w) as [[acts [[|]|status]] w'];
    cbn [fst] in *; try exact Hsetup.
  destruct (list_models w') as [remote w''].
  destruct (get_available_models remote) as [printed models]; cbn [fst].
  rewrite in_app_iff; intros [H | [H | H]]; [auto | discriminate H|].
  apply in_app_or in H as [H | H]; [now apply say_no_call in H|].
  destruct models; now apply say_no_call in H.
Qed.

(** X23.  With the list option the program only configures, lists and
    prints: it creates no session, sends no message and never
    prompts, it does not end on an [EOFError], and neither the model
    option nor the keyboard changes what it does. *)
Theorem main_list_mode (args : arguments) (api_key : option str)
    (keys : list keyboard) (w : World) :
  list_models_flag args = true ->
  (forall e,
     In (Did e) (fst (fst (main start_chat send_message configure
                             list_models args api_key keys w))) ->
     exists line, e = Print line) /\
  snd (fst (main start_chat send_message configure list_models args api_key
              keys w)) <> UncaughtEOFError /\
  forall model' keys',
    main start_chat send_message configure list_models
      {| model := model'; list_models_flag := true |} api_key keys' w =
    main start_chat send_message configure list_models args api_key keys w.
Proof.
  intros Hflag; unfold main; rewrite Hflag; simpl list_models_flag; cbv iota.
  pose proof (list_models_command_prints api_key w) as Hprints.
  destruct (list_models_command configure list_models api_key w)
    as [[acts [u|status]] w']; simpl in *; repeat split;
    try assumption; discriminate.
Qed.

Lemma no_models_line_fresh (lines : list str) :
  Forall (fun line =>
            match line with
            | c :: _ => Ascii.eqb c "N" = false
            | [] => True
            end) lines ->
  ~ In (Did (Print
          (py "No Gemini models found or could not access the API.")))
      (say (Session := Session) lines).
Proof.
  unfold say; rewrite in_map_iff, Forall_forall.
  intros H (line & [= E] & Hin); specialize (H line Hin).
  subst line; discriminate H.
Qed.

Lemma fetch_prints_errors (remote : listing) :
  Forall (fun line =>
            match line with
            | c :: _ => Ascii.eqb c "N" = false
            | [] => True
            end) (fst (get_available_models remote)).
Proof.
  unfold get_available_models; destruct (raised remote) as [err|].
  - repeat constructor.
  - destruct (collect_compatible [] (yielded remote)); constructor.
Qed.

(** X24.  The line that no model was found is never printed: the
    catalog fetch always hands [list_models_command] at least one
    name. *)
Theorem list_models_command_finds (api_key : option str) (w : World) :
  ~ In (Did (Print
          (py "No Gemini models found or could not access the API.")))
      (fst (fst (list_models_command (Session := Session) configure
                   list_models api_key w))).
Proof.
  unfold list_models_command, setup_api.
  destruct api_key as [[|c key]|];
    [apply (no_models_line_fresh key_instructions); repeat constructor |
     | apply (no_models_line_fresh key_instructions); repeat constructor].
  destruct (configure (c :: key) w) as [[err|] w'].
  - intros [H | [H | []]]; discriminate H.
  - destruct (list_models w') as [remote w''].
    pose proof (models_not_nil remote) as Hne.
    pose proof (fetch_prints_errors remote) as Hprinted.
    destruct (get_available_models remote) as [printed models].
    cbn [fst snd] in *.
    intros [H | [H | H]]; try discriminate H.
    apply in_app_or in H as [H | H].
    + exact (no_models_line_fresh printed Hprinted H).
    + destruct models as [|m ms]; [congruence|].
      revert H; apply no_models_line_fresh.
      constructor; [reflexivity|].
      apply Forall_forall; intros line Hl.
      apply in_map_iff in Hl as (x & <- & _); reflexivity.
Qed.

(** X25.  When the key is accepted, the list command prints what the
    fetch printed, the heading and one line for each model the fetch
    returned, of which there is at least one. *)
Theorem list_models_command_lists (c : ascii) (key : str) (w w' w'' : World)
    (remote : listing) :
  configure (c :: key) w = (None, w') ->
  list_models w' = (remote, w'') ->
  snd (get_available_models remote) <> [] /\
  list_models_command (Session := Session) configure list_models
    (Some (c :: key)) w =
  (Configure (c :: key) :: ListModels ::
   say (fst (get_available_models remote)) ++
   say ((LF :: py "Available Gemini models:") ::
        map model_line (snd (get_available_models remote))),
   Return tt, w'').
Proof.
  intros Hconf Hlist; split; [apply models_not_nil|].
  unfold list_models_command, setup_api; rewrite Hconf, Hlist.
  pose proof (models_not_nil remote) as Hne.
  destruct (get_available_models remote) as [printed models]; simpl in *.
  destruct models; [congruence | reflexivity].
Qed.

(** X26.  When the key is accepted and the session cannot be created,
    the program returns without entering the loop: it has configured
    and called the factory once, it never prompts, and the world is
    as the factory left it. *)
Theorem main_no_session (args : arguments) (c : ascii) (key error_str : str)
    (keys : list keyboard) (w w' w'' : World) :
  list_models_flag args = false ->
  configure (c :: key) w = (None, w') ->
  start_chat (model args) w' = (inl error_str, w'') ->
  let result :=
    main start_chat send_message configure list_models args
      (Some (c :: key)) keys w in
  snd (fst result) = Finished /\ snd result = w'' /\
  filter (@is_prompt Session) (fst (fst result)) = [] /\
  filter (@is_remote Session) (fst (fst result)) =
  [Configure (c :: key); Did (StartChat (model args))].
Proof.
  intros Hflag Hconf Hfail; cbv zeta.
  unfold main, setup_api; rewrite Hflag, Hconf.
  rewrite (create_chat_raises Session World start_chat _ _ _ _ Hfail).
  simpl; repeat split; now destruct (_ && _).
Qed.


End ProgramProperties.

(** ** The further properties on given inputs *)

Lemma blank_line_ignored_witness :
  step Demo.start_chat_down Demo.send_echo Demo.flash
    {| chat := Some 7; world := 0 |} (Line (SP :: TAB :: [US])) =
  ([Prompt prompt], Awaiting {| chat := Some 7; world := 0 |}).
Proof.
  apply (blank_line_ignored nat nat Demo.start_chat_down Demo.send_echo
           Demo.flash {| chat := Some 7; world := 0 |} (SP :: TAB :: [US])).
  reflexivity.
Defined.

Lemma session_changes_on_clear_only_witness :
  chat {| chat := Some 1; world := 2 |} =
  if is_clear (Line (py " CLEAR "))
  then match fst (DemoProgram.start_chat_ok Demo.flash 1) with
       | inr c => Some c
       | inl _ => None
       end
  else chat {| chat := Some 7; world := 1 |}.
Proof.
  apply (session_changes_on_clear_only nat nat DemoProgram.start_chat_ok
           Demo.send_echo Demo.flash {| chat := Some 7; world := 1 |}
           {| chat := Some 1; world := 2 |} (Line (py " CLEAR "))
           [Prompt prompt; StartChat Demo.flash;
            Print (py "Chat history cleared.")]).
  reflexivity.
Defined.

Lemma run_without_session_witness :
  filter (@is_call nat)
    (fst (fst (run Demo.start_chat_down Demo.send_echo Demo.flash
                 {| chat := None; world := 3 |}
                 [Line (py "hi"); Line []; Line (py "quit")]))) = [] /\
  chat (snd (run Demo.start_chat_down Demo.send_echo Demo.flash
               {| chat := None; world := 3 |}
               [Line (py "hi"); Line []; Line (py "quit")])) = None.
Proof.
  apply (run_without_session nat nat Demo.start_chat_down Demo.send_echo
           Demo.flash [Line (py "hi"); Line []; Line (py "quit")]
           {| chat := None; world := 3 |}); reflexivity.
Defined.

Lemma run_stops_witness :
  run Demo.start_chat_down Demo.send_echo Demo.flash
    {| chat := Some 7; world := 0 |}
    ([Line (py "hi"); Line (py "EXIT")] ++ [Line (py "again")]) =
  run Demo.start_chat_down Demo.send_echo Demo.flash
    {| chat := Some 7; world := 0 |} [Line (py "hi"); Line (py "EXIT")].
Proof.
  apply (run_stops nat nat Demo.start_chat_down Demo.send_echo Demo.flash
           [Line (py "hi"); Line (py "EXIT")] [Line (py "again")]
           {| chat := Some 7; world := 0 |}).
  reflexivity.
Defined.


Lemma reply_is_wrapped_witness :
  exists wrapped,
    step Demo.start_chat_down Demo.send_echo Demo.flash
      {| chat := Some 7; world := 0 |} (Line (py " hello there ")) =
    ([Prompt prompt; SendMessage 7 (PyStr.strip (py " hello there "));
      Print (LF :: ESC :: py "[1;32mGemini:" ++ ESC :: py "[0m" ++
             LF :: wrapped ++ [LF])],
     Awaiting {| chat := Some 7; world := 1 |}) /\
    Forall (fun line => length line <= 100) (PyStr.split_nl wrapped) /\
    content wrapped = content (PyStr.strip (py " hello there ")).
Proof.
  apply (reply_is_wrapped nat nat Demo.start_chat_down Demo.send_echo
           Demo.flash {| chat := Some 7; world := 0 |} 7
           (py " hello there ") (PyStr.strip (py " hello there ")) 1).
  - unfold is_message; repeat split; try reflexivity.
    vm_compute; discriminate.
  - reflexivity.
  - reflexivity.
Defined.

Lemma main_missing_key_witness :
  main Demo.start_chat_down Demo.send_echo DemoProgram.configure_ok
    DemoProgram.list_three default_arguments (Some []) [Line (py "hi")] 0 =
  (say key_instructions, SystemExit 1, 0).
Proof.
  apply (main_missing_key nat nat Demo.start_chat_down Demo.send_echo
           DemoProgram.configure_ok DemoProgram.list_three default_arguments
           (Some []) [Line (py "hi")] 0).
  right; reflexivity.
Defined.

Lemma main_configure_refused_witness :
  main Demo.start_chat_down Demo.send_echo DemoProgram.configure_refused
    DemoProgram.list_three default_arguments (Some (py "k3y"))
    [Line (py "hi")] 0 =
  ([Configure (py "k3y");
    Did (Print (py "Error configuring Gemini API: " ++ py "invalid API key"))],
   Finished, 1).
Proof.
  apply (main_configure_refused nat nat Demo.start_chat_down Demo.send_echo
           DemoProgram.configure_refused DemoProgram.list_three
           default_arguments "k"%char (py "3y") (py "invalid API key")
           [Line (py "hi")] 0 1).
  reflexivity.
Defined.

Lemma main_list_mode_witness :
  (forall e,
     In (Did e)
       (fst (fst (main Demo.start_chat_down Demo.send_echo
                    DemoProgram.configure_ok DemoProgram.list_three
                    {| model := Demo.flash; list_models_flag := true |}
                    (Some (py "k3y")) [Line (py "hi")] 0))) ->
     exists line, e = Print line) /\
  snd (fst (main Demo.start_chat_down Demo.send_echo DemoProgram.configure_ok
              DemoProgram.list_three
              {| model := Demo.flash; list_models_flag := true |}
              (Some (py "k3y")) [Line (py "hi")] 0)) <> UncaughtEOFError /\
  forall model' keys',
    main Demo.start_chat_down Demo.send_echo DemoProgram.configure_ok
      DemoProgram.list_three
      {| model := model'; list_models_flag := true |}
      (Some (py "k3y")) keys' 0 =
    main Demo.start_chat_down Demo.send_echo DemoProgram.configure_ok
      DemoProgram.list_three
      {| model := Demo.flash; list_models_flag := true |}
      (Some (py "k3y")) [Line (py "hi")] 0.
Proof.
  apply (main_list_mode nat nat Demo.start_chat_down Demo.send_echo
           DemoProgram.configure_ok DemoProgram.list_three
           {| model := Demo.flash; list_models_flag := true |}
           (Some (py "k3y")) [Line (py "hi")] 0).
  reflexivity.
Defined.

Lemma list_models_command_lists_witness :
  snd (get_available_models (fst (DemoProgram.list_three 1))) <> [] /\
  list_models_command (Session := nat) DemoProgram.configure_ok
    DemoProgram.list_three (Some (py "k3y")) 0 =
  (Configure (py "k3y") :: ListModels ::
   say (fst (get_available_models (fst (DemoProgram.list_three 1)))) ++
   say ((LF :: py "Available Gemini models:") ::
        map model_line
          (snd (get_available_models (fst (DemoProgram.list_three 1))))),
   Return tt, 2).
Proof.
  apply (list_models_command_lists nat nat DemoProgram.configure_ok
           DemoProgram.list_three "k"%char (py "3y") 0 1 2
           (fst (DemoProgram.list_three 1))); reflexivity.
Defined.

Lemma main_no_session_witness :
  let result :=
    main Demo.start_chat_down Demo.send_echo DemoProgram.configure_ok
      DemoProgram.list_three default_arguments (Some (py "k3y"))
      [Line (py "hi")] 0 in
  snd (fst result) = Finished /\ snd result = 2 /\
  filter (@is_prompt nat) (fst (fst result)) = [] /\
  filter (@is_remote nat) (fst (fst result)) =
  [Configure (py "k3y"); Did (StartChat (model default_arguments))].
Proof.
  apply (main_no_session nat nat Demo.start_chat_down Demo.send_echo
           DemoProgram.configure_ok DemoProgram.list_three default_arguments
           "k"%char (py "3y") (py "503 service unavailable")
           [Line (py "hi")] 0 1 2); reflexivity.
Defined.

